(** * process_scripts.py: screenplay line classifier, block assembler and
      paragraph consolidator

    Shallow embedding of the core of [process_movie_script]
    (src/process_scripts.py, lines 35-195): the loop that classifies the
    text lines of a screenplay and assembles them into typed records, and
    the second loop that merges consecutive ACTION records of one scene.
    Reading the PDF and writing the JSON and text files are outside the
    embedding: the core starts from the list [lines] and ends with the list
    [processed_data] that the function returns. *)

From Stdlib Require Import String Ascii NArith Bool Arith Lia List.
Import ListNotations.

Set Implicit Arguments.

(** ** Python strings *)

(** A Python 3 [str] is a sequence of Unicode code points. *)
Definition char := N.
Definition str := list char.

(** [lit "..."] is the [str] of an ASCII literal of the source. *)
Definition lit (s : string) : str :=
  map N_of_ascii (list_ascii_of_string s).

(** U+2019, the right single quotation mark of the regular expression. *)
Definition rsquo : char := 8217%N.

Fixpoint str_eqb (a b : str) : bool :=
  match a, b with
  | [], [] => true
  | x :: a', y :: b' => N.eqb x y && str_eqb a' b'
  | _, _ => false
  end.

(** Truth value of a sequence: non-empty. *)
Definition truthy {A} (l : list A) : bool :=
  match l with [] => false | _ :: _ => true end.

(** Truth value of [None] or a string. *)
Definition truthy_opt (o : option str) : bool :=
  match o with None => false | Some s => truthy s end.

(** [a == b] on values that are [None] or a string. *)
Definition opt_eqb (a b : option str) : bool :=
  match a, b with
  | None, None => true
  | Some x, Some y => str_eqb x y
  | _, _ => false
  end.

(** [Py_UNICODE_ISSPACE]: the code points that [str.isspace], [str.strip],
    [str.split] and the regular expression class [\s] treat as whitespace. *)
Definition isspace (c : char) : bool :=
  ((9 <=? c) && (c <=? 13) || (28 <=? c) && (c <=? 32) ||
   (c =? 133) || (c =? 160) || (c =? 5760) ||
   (8192 <=? c) && (c <=? 8202) ||
   (c =? 8232) || (c =? 8233) || (c =? 8239) || (c =? 8287) ||
   (c =? 12288))%N.

(** The case and digit tables of the Unicode character database, which the
    interpreter supplies: they are a parameter of the development. *)
Class UnicodeData := {
  ch_isupper : char -> bool;      (* Py_UNICODE_ISUPPER *)
  ch_islower : char -> bool;      (* Py_UNICODE_ISLOWER *)
  ch_istitle : char -> bool;      (* Py_UNICODE_ISTITLE *)
  ch_isdecimal : char -> bool;    (* the class \d of a str pattern *)
  str_lower : str -> str          (* str.lower() *)
}.

(** The tables restricted to ASCII: exact on code points below 128, every
    other code point uncased and not a digit (as U+2019 is). *)
Definition ascii_isupper (c : char) : bool := ((65 <=? c) && (c <=? 90))%N.
Definition ascii_islower (c : char) : bool := ((97 <=? c) && (c <=? 122))%N.
Definition ascii_isdecimal (c : char) : bool := ((48 <=? c) && (c <=? 57))%N.
Definition ascii_lower (s : str) : str :=
  map (fun c => if ascii_isupper c then (c + 32)%N else c) s.

Definition AsciiData : UnicodeData := {|
  ch_isupper := ascii_isupper;
  ch_islower := ascii_islower;
  ch_istitle := fun _ => false;
  ch_isdecimal := ascii_isdecimal;
  str_lower := ascii_lower
|}.

Fixpoint lstrip (s : str) : str :=
  match s with
  | [] => []
  | c :: t => if isspace c then lstrip t else s
  end.

Definition rstrip (s : str) : str := rev (lstrip (rev s)).

(** [s.strip()] *)
Definition strip (s : str) : str := rstrip (lstrip s).

(** [s.startswith(p)] *)
Fixpoint startswith (s p : str) {struct p} : bool :=
  match p, s with
  | [], _ => true
  | x :: p', y :: s' => N.eqb x y && startswith s' p'
  | _ :: _, [] => false
  end.

(** [x in s]: [x] occurs in [s] as a substring. *)
Fixpoint contains (x s : str) : bool :=
  startswith s x ||
  match s with
  | [] => false
  | _ :: t => contains x t
  end.

(** [any(x in s for x in xs)] *)
Definition any_in (xs : list str) (s : str) : bool :=
  existsb (fun x => contains x s) xs.

(** [sep.join(l)] *)
Fixpoint join (sep : str) (l : list str) : str :=
  match l with
  | [] => []
  | [x] => x
  | x :: t => x ++ sep ++ join sep t
  end.

(** [s.split()]: the maximal runs of non-whitespace characters. [cur] is
    the run being read. *)
Fixpoint split_from (cur : str) (s : str) : list str :=
  match s with
  | [] => if truthy cur then [cur] else []
  | c :: t =>
      if isspace c
      then (if truthy cur then cur :: split_from [] t else split_from [] t)
      else split_from (cur ++ [c]) t
  end.

Definition split (s : str) : list str := split_from [] s.

Section Unicode.
Context {U : UnicodeData}.

(** [s.isupper()], as [unicode_isupper_impl] computes it: a string of one
    character is tested directly; otherwise no character is lower-case or
    title-case and at least one is upper-case. *)
Fixpoint isupper_scan (cased : bool) (s : str) : bool :=
  match s with
  | [] => cased
  | c :: t =>
      if ch_islower c || ch_istitle c then false
      else isupper_scan (cased || ch_isupper c) t
  end.

Definition isupper (s : str) : bool :=
  match s with
  | [c] => ch_isupper c
  | _ => isupper_scan false s
  end.

(** [re.match(r'^\d+', s)] as a truth value. *)
Definition match_digits (s : str) : bool :=
  match s with
  | [] => false
  | c :: _ => ch_isdecimal c
  end.

End Unicode.

(** ** The continuation marker

    [re.sub(r"\s*\([Cc][Oo][Nn][Tt][''’]?[Dd]\)", '', s)]. *)

Definition one_of (a b : string) (c : char) : bool :=
  contains [c] (lit a) || contains [c] (lit b).

(** Characters the pattern consumes after the leading [\s*], when it
    matches at the head of [s]. The class [\s*] is greedy and the next
    pattern character is not whitespace, so the run of whitespace is taken
    whole; the optional apostrophe is taken when present, and giving it
    back cannot help since [[Dd]] does not match an apostrophe. *)
Definition match_marker (s : str) : option nat :=
  match s with
  | p :: c :: o :: n :: t :: r =>
      if (p =? 40)%N && one_of "C" "c" c && one_of "O" "o" o &&
         one_of "N" "n" n && one_of "T" "t" t
      then match r with
           | q :: d :: e :: _ =>
               if ((q =? 39) || (q =? rsquo))%N
               then (if one_of "D" "d" d && (e =? 41)%N then Some 8 else None)
               else (if one_of "D" "d" q && (d =? 41)%N then Some 7 else None)
           | [d; e] =>
               if one_of "D" "d" d && (e =? 41)%N then Some 7 else None
           | _ => None
           end
      else None
  | _ => None
  end.

Fixpoint count_space (s : str) : nat :=
  match s with
  | [] => 0
  | c :: t => if isspace c then S (count_space t) else 0
  end.

(** Length of the match of the whole pattern at the head of [s]. *)
Definition match_contd (s : str) : option nat :=
  let k := count_space s in
  match match_marker (skipn k s) with
  | Some m => Some (k + m)
  | None => None
  end.

(** The substitution scans from the left; [skip] counts the characters of
    the current match that are still to be dropped. *)
Fixpoint sub_contd_from (skip : nat) (s : str) : str :=
  match s with
  | [] => []
  | c :: t =>
      match skip with
      | S k => sub_contd_from k t
      | O =>
          match match_contd s with
          | Some (S k) => sub_contd_from k t
          | _ => c :: sub_contd_from 0 t
          end
      end
  end.

Definition sub_contd (s : str) : str := sub_contd_from 0 s.

(** ** Exceptions *)

Inductive exn := IndexError.

Inductive result (A : Type) :=
| Ok (a : A)
| Raise (e : exn).
Arguments Ok {A} a.
Arguments Raise {A} e.

Definition bind {A B} (m : result A) (k : A -> result B) : result B :=
  match m with
  | Ok a => k a
  | Raise e => Raise e
  end.

Notation "x <- m ;; k" := (bind m (fun x => k))
  (at level 61, m at next level, right associativity).

(** [s[i]]: raises [IndexError] outside the string. *)
Definition index (s : str) (i : nat) : result char :=
  match nth_error s i with
  | Some c => Ok c
  | None => Raise IndexError
  end.

(** ** Records

    The dictionaries appended to [processed_data]: the key ['type'] is the
    constructor, a SCENE dictionary has no key ['scene'], the other three
    carry [current_scene], which is [None] or a string. *)
Inductive item :=
| SCENE (text : str)
| CHARACTER (text : str) (scene : option str)
| DIALOGUE (text : str) (scene : option str)
| ACTION (text : str) (scene : option str).

(** [item['text']] *)
Definition text_of (it : item) : str :=
  match it with
  | SCENE t | CHARACTER t _ | DIALOGUE t _ | ACTION t _ => t
  end.

(** [item.get('scene')] *)
Definition get_scene (it : item) : option str :=
  match it with
  | SCENE _ => None
  | CHARACTER _ s | DIALOGUE _ s | ACTION _ s => s
  end.

Definition is_scene (it : item) : bool :=
  match it with SCENE _ => true | _ => false end.

Definition is_action (it : item) : bool :=
  match it with ACTION _ _ => true | _ => false end.

Definition is_dialogue (it : item) : bool :=
  match it with DIALOGUE _ _ => true | _ => false end.

(** ** The assembler: first loop of [process_movie_script] *)

Record state := mkState {
  processed_data : list item;
  current_scene : option str;
  current_character : option str;
  dialogue_buffer : list str;
  in_dialogue_mode : bool
}.

Definition initial : state :=
  mkState [] None None [] false.

(** [processed_data.append(r)] *)
Definition append (r : item) (st : state) : state :=
  mkState (processed_data st ++ [r]) (current_scene st)
          (current_character st) (dialogue_buffer st) (in_dialogue_mode st).

Definition set_scene (s : option str) (st : state) : state :=
  mkState (processed_data st) s (current_character st)
          (dialogue_buffer st) (in_dialogue_mode st).

Definition set_character (c : option str) (st : state) : state :=
  mkState (processed_data st) (current_scene st) c
          (dialogue_buffer st) (in_dialogue_mode st).

Definition set_buffer (b : list str) (st : state) : state :=
  mkState (processed_data st) (current_scene st) (current_character st)
          b (in_dialogue_mode st).

Definition set_mode (m : bool) (st : state) : state :=
  mkState (processed_data st) (current_scene st) (current_character st)
          (dialogue_buffer st) m.

(** The DIALOGUE dictionary built from the buffer. *)
Definition dialogue_record (st : state) : item :=
  DIALOGUE (join (lit " ") (dialogue_buffer st)) (current_scene st).

(** [in_dialogue_mode and dialogue_buffer] *)
Definition pending (st : state) : bool :=
  in_dialogue_mode st && truthy (dialogue_buffer st).

(** Lines 47-54 and 61-68: save the dialogue and leave dialogue mode. *)
Definition flush_and_reset (st : state) : state :=
  set_character None (set_mode false (set_buffer [] (append (dialogue_record st) st))).

(** Lines 97-102 and 122-127: save the dialogue, empty the buffer. *)
Definition flush (st : state) : state :=
  set_buffer [] (append (dialogue_record st) st).

(** Lines 72-76 and 80-84. *)
Definition emit_scene (stripped : str) (st : state) : state :=
  append (SCENE stripped) (set_scene (Some stripped) st).

Definition heading_markers : list str :=
  [lit "INT."; lit "EXT."; lit "INT/EXT"].

Definition cue_exclusions : list str :=
  [lit "INT."; lit "EXT."; lit "FADE"; lit "CUT TO"; lit "DISSOLVE";
   lit "THE END"].

Definition action_words : list str :=
  [lit "the "; lit "a "; lit "an "; lit "he "; lit "she "; lit "they ";
   lit "it "; lit "as "; lit "suddenly "].

Section Assembler.
Context {U : UnicodeData}.

(** Line 58 *)
Definition heading_candidate (stripped : str) : bool :=
  isupper stripped && (5 <? length stripped).

(** Lines 71 and 79: the candidate is a scene heading. *)
Definition is_heading (stripped : str) : bool :=
  match_digits stripped ||
  (any_in heading_markers stripped || (20 <? length stripped)).

(** Lines 89-90 *)
Definition clean (stripped : str) : str := strip (sub_contd stripped).

(** Lines 92 and 94 *)
Definition is_cue (clean_char : str) : bool :=
  (isupper clean_char && (length clean_char <=? 30) &&
   (length (split clean_char) <=? 4)) &&
  negb (any_in cue_exclusions clean_char).

(** Lines 118-119. The first operand is
    [line and not line[0].isspace() and len(line) > 50]. *)
Definition looks_like_action (line stripped : str) : result bool :=
  margin <-
    (if truthy line
     then (c <- index line 0 ;;
           Ok (negb (isspace c) && (50 <? length line)))
     else Ok false) ;;
  Ok (margin ||
      existsb (fun word => startswith (str_lower stripped) word) action_words).

(** Lines 114-144, reached by a line that is neither heading nor cue. *)
Definition dialogue_or_action (st : state) (line stripped : str)
  : result state :=
  if in_dialogue_mode st && truthy_opt (current_character st) then
    b <- looks_like_action line stripped ;;
    if b then
      let st := if truthy (dialogue_buffer st) then flush st else st in
      Ok (append (ACTION stripped (current_scene st))
                 (set_character None (set_mode false st)))
    else
      Ok (set_buffer (dialogue_buffer st ++ [stripped]) st)
  else
    Ok (append (ACTION stripped (current_scene st)) st).

(** Lines 89-144 *)
Definition cue_or_text (st : state) (line stripped : str) : result state :=
  let clean_char := clean stripped in
  if is_cue clean_char then
    let st := if pending st then flush st else st in
    Ok (set_mode true
          (append (CHARACTER clean_char (current_scene st))
                  (set_character (Some clean_char) st)))
  else
    dialogue_or_action st line stripped.

(** One iteration of the loop of line 41. *)
Definition step (st : state) (line : str) : result state :=
  let stripped := strip line in
  if negb (truthy stripped) then
    Ok (if pending st then flush_and_reset st else st)
  else if heading_candidate stripped then
    let st := if pending st then flush_and_reset st else st in
    if is_heading stripped then Ok (emit_scene stripped st)
    else cue_or_text st line stripped
  else
    cue_or_text st line stripped.

Fixpoint run (st : state) (lines : list str) : result state :=
  match lines with
  | [] => Ok st
  | line :: rest => st' <- step st line ;; run st' rest
  end.

(** Lines 147-152 *)
Definition final_flush (st : state) : list item :=
  if pending st then processed_data st ++ [dialogue_record st]
  else processed_data st.

(** The list [processed_data] after the first loop and the last flush. *)
Definition assemble (lines : list str) : result (list item) :=
  st <- run initial lines ;; Ok (final_flush st).

End Assembler.

(** ** The consolidator: second loop of [process_movie_script] *)

Record cstate := mkCState {
  consolidated_data : list item;
  action_buffer : list str;
  current_action_scene : option str
}.

Definition cinitial : cstate := mkCState [] [] None.

(** The ACTION dictionary built from the action buffer. *)
Definition action_record (cs : cstate) : item :=
  ACTION (join (lit " ") (action_buffer cs)) (current_action_scene cs).

(** One iteration of the loop of line 159. *)
Definition cstep (cs : cstate) (it : item) : cstate :=
  match it with
  | ACTION text scene =>
      if opt_eqb (current_action_scene cs) scene then
        mkCState (consolidated_data cs) (action_buffer cs ++ [text])
                 (current_action_scene cs)
      else
        mkCState (if truthy (action_buffer cs)
                  then consolidated_data cs ++ [action_record cs]
                  else consolidated_data cs)
                 [text] scene
  | _ =>
      if truthy (action_buffer cs) then
        mkCState ((consolidated_data cs ++ [action_record cs]) ++ [it])
                 [] None
      else
        mkCState (consolidated_data cs ++ [it])
                 (action_buffer cs) (current_action_scene cs)
  end.

(** Lines 188-193 *)
Definition cfinish (cs : cstate) : list item :=
  if truthy (action_buffer cs)
  then consolidated_data cs ++ [action_record cs]
  else consolidated_data cs.

Definition consolidate_from (cs : cstate) (items : list item) : list item :=
  cfinish (fold_left cstep items cs).

(** Lines 155-195 *)
Definition consolidate (items : list item) : list item :=
  consolidate_from cinitial items.

(** ** The core of [process_movie_script]: lines 35-195 *)

Definition process_lines {U : UnicodeData} (lines : list str)
  : result (list item) :=
  processed <- assemble lines ;; Ok (consolidate processed).

(** * Predicates of the specification *)

Section Cases.
Context {U : UnicodeData}.

(** The line is emitted as a SCENE record. *)
Definition scene_line (stripped : str) : bool :=
  heading_candidate stripped && is_heading stripped.

(** The line is emitted as a CHARACTER record. *)
Definition cue_line (stripped : str) : bool :=
  negb (scene_line stripped) && is_cue (clean stripped).

(** State after the flush of lines 60-68, which a heading candidate
    triggers whether or not it turns out to be a heading. *)
Definition after_candidate (st : state) (stripped : str) : state :=
  if heading_candidate stripped && pending st then flush_and_reset st else st.

(** The six ways through one iteration: a blank line, a scene heading, a
    cue, a line that ends the dialogue as action, a line of dialogue, and
    a line of action outside dialogue. [step_case st line st'] relates the
    state before the iteration on [line] to the state after it. *)
Inductive step_case (st : state) (line : str) : state -> Prop :=
| case_blank :
    strip line = [] ->
    step_case st line (if pending st then flush_and_reset st else st)
| case_heading :
    strip line <> [] -> scene_line (strip line) = true ->
    step_case st line
      (emit_scene (strip line) (if pending st then flush_and_reset st else st))
| case_cue st1 st2 :
    strip line <> [] -> cue_line (strip line) = true ->
    st1 = after_candidate st (strip line) ->
    st2 = (if pending st1 then flush st1 else st1) ->
    step_case st line
      (set_mode true
         (append (CHARACTER (clean (strip line)) (current_scene st2))
                 (set_character (Some (clean (strip line))) st2)))
| case_switch st1 st2 :
    strip line <> [] -> scene_line (strip line) = false ->
    cue_line (strip line) = false ->
    st1 = after_candidate st (strip line) ->
    in_dialogue_mode st1 = true -> truthy_opt (current_character st1) = true ->
    looks_like_action line (strip line) = Ok true ->
    st2 = (if truthy (dialogue_buffer st1) then flush st1 else st1) ->
    step_case st line
      (append (ACTION (strip line) (current_scene st2))
              (set_character None (set_mode false st2)))
| case_continuation st1 :
    strip line <> [] -> scene_line (strip line) = false ->
    cue_line (strip line) = false ->
    st1 = after_candidate st (strip line) ->
    in_dialogue_mode st1 = true -> truthy_opt (current_character st1) = true ->
    looks_like_action line (strip line) = Ok false ->
    step_case st line (set_buffer (dialogue_buffer st1 ++ [strip line]) st1)
| case_action st1 :
    strip line <> [] -> scene_line (strip line) = false ->
    cue_line (strip line) = false ->
    st1 = after_candidate st (strip line) ->
    in_dialogue_mode st1 && truthy_opt (current_character st1) = false ->
    step_case st line (append (ACTION (strip line) (current_scene st1)) st1).

End Cases.

(** The invariant of the assembler's state between two iterations. *)
Definition invariant (st : state) : Prop :=
  (in_dialogue_mode st = true -> current_character st <> None) /\
  (dialogue_buffer st <> [] -> in_dialogue_mode st = true).

(** A record that is not a DIALOGUE record with empty text. *)
Definition dialogue_has_text (it : item) : bool :=
  match it with
  | DIALOGUE t _ => truthy t
  | _ => true
  end.

(** No blank string is buffered and no DIALOGUE record without text has
    been appended. *)
Definition texts_ok (st : state) : Prop :=
  Forall (fun s : str => s <> []) (dialogue_buffer st) /\
  forallb dialogue_has_text (processed_data st) = true.

(** Scene of the last record of a list, when that record is an ACTION
    record. *)
Definition last_action_scene (l : list item) : option (option str) :=
  match rev l with
  | ACTION _ s :: _ => Some s
  | _ => None
  end.

(** No two adjacent records are ACTION records of the same scene. *)
Definition separated (l : list item) : Prop :=
  forall pre t1 s1 t2 s2 post,
    l = pre ++ ACTION t1 s1 :: ACTION t2 s2 :: post -> s1 <> s2.

(** State of the consolidator over an output in which adjacent ACTION
    records never share a scene. *)
Definition settled (cs : cstate) : Prop :=
  separated (consolidated_data cs) /\
  (action_buffer cs <> [] ->
   last_action_scene (consolidated_data cs) <> Some (current_action_scene cs)) /\
  (action_buffer cs = [] -> last_action_scene (consolidated_data cs) = None).

(** State of the consolidator after reading [done], a list in which
    adjacent ACTION records never share a scene: the output is [done] itself,
    less a last ACTION record that waits alone in the buffer. *)
Definition copied (done : list item) (cs : cstate) : Prop :=
  (action_buffer cs = [] /\ current_action_scene cs = None /\
   consolidated_data cs = done /\ last_action_scene done = None) \/
  (exists t, action_buffer cs = [t] /\
             done = consolidated_data cs ++ [ACTION t (current_action_scene cs)]).

(** Text of the last SCENE record of a list; [None] when there is none. *)
Definition last_scene (l : list item) : option str :=
  fold_left (fun cur it => match it with SCENE t => Some t | _ => cur end)
            l None.

(** Every record that is not a SCENE record carries the text of the last
    SCENE record before it. *)
Definition attached (l : list item) : Prop :=
  forall pre r post,
    l = pre ++ r :: post -> is_scene r = false ->
    get_scene r = last_scene pre.

(** [current_scene] is the text of the last SCENE record appended. *)
Definition scene_tracked (st : state) : Prop :=
  attached (processed_data st) /\
  last_scene (processed_data st) = current_scene st.

(** The consolidator's output and buffer agree with the scenes of the
    records read so far. *)
Definition scene_kept (done : list item) (cs : cstate) : Prop :=
  attached (consolidated_data cs) /\
  last_scene (consolidated_data cs) = last_scene done /\
  (action_buffer cs <> [] -> current_action_scene cs = last_scene done).

(** ** Text content *)

(** A string without its whitespace characters. *)
Definition nows (s : str) : str := filter (fun c => negb (isspace c)) s.

(** Concatenation of the [text] fields of a list of records. *)
Definition all_text (l : list item) : str := concat (map text_of l).

Section Kept.
Context {U : UnicodeData}.

(** What a line contributes to the records: the cleaned name when the line
    is emitted as a CHARACTER record, its trimmed content otherwise. *)
Definition kept (line : str) : str :=
  if cue_line (strip line) then clean (strip line) else strip line.

End Kept.

(** Text, without whitespace, of the records appended so far followed by
    the buffered dialogue. *)
Definition flat (st : state) : str :=
  nows (all_text (processed_data st)) ++ concat (map nows (dialogue_buffer st)).

Definition cflat (cs : cstate) : str :=
  nows (all_text (consolidated_data cs)) ++ concat (map nows (action_buffer cs)).

(** The invariant with a current character that is a non-empty string. *)
Definition well_formed (st : state) : Prop :=
  (in_dialogue_mode st = true -> truthy_opt (current_character st) = true) /\
  (dialogue_buffer st <> [] -> in_dialogue_mode st = true).

(** ** Inputs of the examples *)

Definition luke : str := lit "LUKE".

Definition luke_contd : str := lit "LUKE (CONT'D)".

(** The state after the cue [LUKE] and one line of dialogue. *)
Definition luke_speaking : state :=
  mkState [CHARACTER luke None] None (Some luke) [lit "Hi"] true.

(** The state right after the cue [LUKE]. *)
Definition luke_cued : state :=
  mkState [CHARACTER luke None] None (Some luke) [] true.

Definition fade_out : str := lit "FADE OUT".

(** The whole of [a] matches [\([Cc][Oo][Nn][Tt][''’]?[Dd]\)]. *)
Definition contd_marker (a : str) : bool :=
  match match_marker a with
  | Some n => Nat.eqb n (length a)
  | None => false
  end.

Section ShortCaps.
Context {U : UnicodeData}.

(** A line of upper-case text of 6 to 20 characters that is neither a
    scene heading nor a cue. *)
Definition short_caps_text (line : str) : Prop :=
  isupper (strip line) = true /\
  5 < length (strip line) /\ length (strip line) <= 20 /\
  match_digits (strip line) = false /\
  any_in heading_markers (strip line) = false /\
  is_cue (clean (strip line)) = false.

End ShortCaps.

(** * The rest of [process_movie_script] *)

(** ** The lines of the document: lines 26-34 *)

Definition newline : char := 10%N.

(** [s.split(sep)] for a separator of one character: the pieces between
    the separators, empty pieces included; [cur] is the piece being read. *)
Fixpoint split_char_from (cur : str) (sep : char) (s : str) : list str :=
  match s with
  | [] => [cur]
  | c :: t =>
      if (c =? sep)%N then cur :: split_char_from [] sep t
      else split_char_from (cur ++ [c]) sep t
  end.

Definition split_char (sep : char) (s : str) : list str :=
  split_char_from [] sep s.

(** One iteration of the loop of line 28. [page_text] is the value of
    [page.extract_text()], [None] or a string; a page without text adds
    nothing. *)
Definition add_page (full_text : str) (page_text : option str) : str :=
  match page_text with
  | Some t => if truthy t then full_text ++ (t ++ [newline]) else full_text
  | None => full_text
  end.

(** Lines 26-31 *)
Definition full_text (pages : list (option str)) : str :=
  fold_left add_page pages [].

(** The texts of the pages that have one. *)
Definition page_texts (pages : list (option str)) : list str :=
  flat_map (fun p => match p with
                     | Some t => if truthy t then [t] else []
                     | None => []
                     end) pages.

(** Line 34 *)
Definition extract_lines (pages : list (option str)) : list str :=
  split_char newline (full_text pages).

(** The value [process_movie_script] returns (line 217), from the texts of
    the pages. *)
Definition process_pages {U : UnicodeData} (pages : list (option str))
  : result (list item) :=
  process_lines (extract_lines pages).

(** ** The text file: lines 205-215 *)

(** [s.replace(old, new)] for a non-empty [old]: the occurrences of [old]
    are replaced from the left, without overlap; [skip] counts the
    characters of the current occurrence that are still to be dropped. *)
Fixpoint replace_from (skip : nat) (old new s : str) : str :=
  match s with
  | [] => []
  | c :: t =>
      match skip with
      | S k => replace_from k old new t
      | O =>
          if startswith s old
          then new ++ replace_from (length old - 1) old new t
          else c :: replace_from 0 old new t
      end
  end.

Definition replace (old new s : str) : str := replace_from 0 old new s.

(** Line 205 *)
Definition txt_output (output_path : str) : str :=
  replace (lit ".json") (lit ".txt") output_path.

(** The value of [item['type']]. *)
Inductive kind := Scene | Character | Dialogue | Action.

Definition type_of (it : item) : kind :=
  match it with
  | SCENE _ => Scene
  | CHARACTER _ _ => Character
  | DIALOGUE _ _ => Dialogue
  | ACTION _ _ => Action
  end.

(** What one iteration of the loop of line 207 writes. *)
Definition write_item (it : item) : str :=
  match it with
  | SCENE t => [newline] ++ lit "[SCENE] " ++ t ++ [newline]
  | CHARACTER t _ => [newline] ++ lit "[CHARACTER:" ++ t ++ lit "]" ++ [newline]
  | DIALOGUE t _ => lit "[DIALOGUE] " ++ t ++ [newline]
  | ACTION t _ => lit "[ACTION] " ++ t ++ [newline]
  end.

(** The characters written to the text file. *)
Definition txt_content (data : list item) : str :=
  concat (map write_item data).

(** ** Predicates on records and lines *)

(** The text holds no newline. *)
Definition one_line (s : str) : Prop := ~ In newline s.

Definition not_action (it : item) : bool := negb (is_action it).

Definition is_character (it : item) : bool :=
  match it with CHARACTER _ _ => true | _ => false end.

(** The texts of the SCENE records of a list, and of its CHARACTER
    records. *)
Definition scenes_of (l : list item) : list str :=
  map text_of (filter is_scene l).

Definition characters_of (l : list item) : list str :=
  map text_of (filter is_character l).

(** The SCENE and CHARACTER texts of two states are the same. *)
Definition same_heads (st st' : state) : Prop :=
  scenes_of (processed_data st') = scenes_of (processed_data st) /\
  characters_of (processed_data st') = characters_of (processed_data st).

Section LineKinds.
Context {U : UnicodeData}.

(** The SCENE and CHARACTER texts a list of lines gives rise to. *)
Definition scene_texts (lines : list str) : list str :=
  filter scene_line (map strip lines).

Definition cue_texts (lines : list str) : list str :=
  map clean (filter cue_line (map strip lines)).

End LineKinds.

(** Output length of the consolidator, the buffered run counted as one. *)
Definition csize (cs : cstate) : nat :=
  length (consolidated_data cs) + (if truthy (action_buffer cs) then 1 else 0).

Definition one_line_item (it : item) : Prop := one_line (text_of it).

(** No newline in the buffered dialogue nor in the records appended. *)
Definition lines_ok (st : state) : Prop :=
  Forall one_line (dialogue_buffer st) /\
  Forall one_line_item (processed_data st).

Definition clines_ok (cs : cstate) : Prop :=
  Forall one_line (action_buffer cs) /\
  Forall one_line_item (consolidated_data cs).

(** Every buffered line and every text appended satisfies [P]. *)
Definition texts_all (P : str -> Prop) (st : state) : Prop :=
  Forall P (dialogue_buffer st) /\
  Forall (fun it => P (text_of it)) (processed_data st).

Definition ctexts_all (P : str -> Prop) (cs : cstate) : Prop :=
  Forall P (action_buffer cs) /\
  Forall (fun it => P (text_of it)) (consolidated_data cs).

(** The consolidator's state with [pre] before its output. *)
Definition after_prefix (pre : list item) (cs : cstate) : cstate :=
  mkCState (pre ++ consolidated_data cs) (action_buffer cs)
           (current_action_scene cs).

(** With an empty buffer the consolidator has no current scene. *)
Definition idle_unscened (cs : cstate) : Prop :=
  action_buffer cs = [] -> current_action_scene cs = None.

(** * Properties *)

(** ** The scenarios of the specification *)

Example scenario_heading_number :
  process_lines (U := AsciiData) [lit "42 INT. DEATH STAR - CONTROL ROOM"]
  = Ok [SCENE (lit "42 INT. DEATH STAR - CONTROL ROOM")].
Proof. vm_compute. reflexivity. Qed.

Example scenario_dialogue_buffering :
  process_lines (U := AsciiData)
    [lit "LUKE"; lit "I have a bad feeling"; lit "about this."; lit ""]
  = Ok [CHARACTER (lit "LUKE") None;
        DIALOGUE (lit "I have a bad feeling about this.") None].
Proof. vm_compute. reflexivity. Qed.

Example scenario_action_reclassification :
  process_lines (U := AsciiData)
    [lit "LUKE"; lit "Hold on!";
     lit "The ship shudders violently as blaster fire rocks the hull."]
  = Ok [CHARACTER (lit "LUKE") None;
        DIALOGUE (lit "Hold on!") None;
        ACTION (lit "The ship shudders violently as blaster fire rocks the hull.") None].
Proof. vm_compute. reflexivity. Qed.

Example scenario_action_consolidation :
  consolidate [ACTION (lit "Luke ducks.") None; ACTION (lit "Debris falls.") None]
  = [ACTION (lit "Luke ducks. Debris falls.") None].
Proof. vm_compute. reflexivity. Qed.

Example scenario_exclusion_guard :
  process_lines (U := AsciiData) [lit "THE END"]
  = Ok [ACTION (lit "THE END") None].
Proof. vm_compute. reflexivity. Qed.

(** ** Strings *)

Lemma truthy_true {A} (l : list A) : truthy l = true <-> l <> [].
Proof. destruct l; simpl; split; congruence. Qed.

Lemma truthy_false {A} (l : list A) : truthy l = false <-> l = [].
Proof. destruct l; simpl; split; congruence. Qed.

Lemma truthy_snoc {A} (l : list A) (x : A) : truthy (l ++ [x]) = true.
Proof. destruct l; reflexivity. Qed.

Lemma str_eqb_eq (a b : str) : str_eqb a b = true <-> a = b.
Proof.
  revert b; induction a as [|x a IH]; intros [|y b]; simpl;
    try (split; congruence).
  rewrite andb_true_iff, N.eqb_eq, IH. split.
  - intros [-> ->]; reflexivity.
  - intros E; injection E; auto.
Qed.

Lemma opt_eqb_eq (a b : option str) : opt_eqb a b = true <-> a = b.
Proof.
  destruct a as [x|], b as [y|]; simpl; try (split; congruence).
  rewrite str_eqb_eq. split; congruence.
Qed.

Lemma opt_eqb_neq (a b : option str) : opt_eqb a b = false <-> a <> b.
Proof.
  rewrite <- opt_eqb_eq. destruct (opt_eqb a b); split; congruence.
Qed.

Lemma join_nonempty (sep : str) (l : list str) :
  l <> [] -> Forall (fun s => s <> []) l -> join sep l <> [].
Proof.
  intros Hl Hall. destruct l as [|x t]; [congruence|].
  inversion Hall as [|? ? Hx _]; subst.
  destruct x as [|c x]; [congruence|].
  destruct t; simpl; discriminate.
Qed.

Lemma join_single (sep x : str) : join sep [x] = x.
Proof. reflexivity. Qed.

(** ** No exception is raised *)

Section Totality.
Context {U : UnicodeData}.

(** The index [0] is read only behind the test [line and ...]. *)
Lemma looks_like_action_total (line stripped : str) :
  exists b, looks_like_action line stripped = Ok b.
Proof.
  unfold looks_like_action.
  destruct line as [|c line]; simpl; eauto.
Qed.

Lemma dialogue_or_action_total (st : state) (line stripped : str) :
  exists st', dialogue_or_action st line stripped = Ok st'.
Proof.
  unfold dialogue_or_action.
  destruct (looks_like_action_total line stripped) as [b ->]. simpl.
  destruct (in_dialogue_mode st && truthy_opt (current_character st));
    [destruct b|]; eauto.
Qed.

Lemma cue_or_text_total (st : state) (line stripped : str) :
  exists st', cue_or_text st line stripped = Ok st'.
Proof.
  unfold cue_or_text.
  destruct (is_cue (clean stripped)); eauto using dialogue_or_action_total.
Qed.

Lemma step_total (st : state) (line : str) :
  exists st', step st line = Ok st'.
Proof.
  unfold step.
  destruct (negb (truthy (strip line))); eauto.
  destruct (heading_candidate (strip line)); eauto using cue_or_text_total.
  destruct (is_heading (strip line)); eauto using cue_or_text_total.
Qed.

Lemma run_total (lines : list str) :
  forall st, exists st', run st lines = Ok st'.
Proof.
  induction lines as [|line rest IH]; intros st; simpl; eauto.
  destruct (step_total st line) as [st1 ->]. simpl. apply IH.
Qed.

Lemma run_app (l1 l2 : list str) (st : state) :
  run st (l1 ++ l2) = st1 <- run st l1 ;; run st1 l2.
Proof.
  revert st; induction l1 as [|x l1 IH]; intros st; simpl; auto.
  destruct (step st x); simpl; auto.
Qed.

End Totality.

(** ** The cases of one iteration *)

Section CasesOk.
Context {U : UnicodeData}.

Lemma cue_or_text_case (st st1 st' : state) (line : str) :
  strip line <> [] -> scene_line (strip line) = false ->
  st1 = after_candidate st (strip line) ->
  cue_or_text st1 line (strip line) = Ok st' ->
  step_case st line st'.
Proof.
  intros Hne Hsc Hst1. unfold cue_or_text, dialogue_or_action.
  destruct (is_cue (clean (strip line))) eqn:Hcue.
  - intros E; injection E as <-.
    eapply case_cue; eauto. unfold cue_line. now rewrite Hsc, Hcue.
  - assert (Hc : cue_line (strip line) = false)
      by (unfold cue_line; now rewrite Hcue, andb_false_r).
    destruct (in_dialogue_mode st1 && truthy_opt (current_character st1))
      eqn:Hmode.
    + apply andb_true_iff in Hmode as [Hm Hch].
      destruct (looks_like_action line (strip line)) as [[|]|] eqn:Hact;
        simpl; intros E; try discriminate; injection E as <-.
      * eapply case_switch; eauto.
      * eapply case_continuation; eauto.
    + intros E; injection E as <-. eapply case_action; eauto.
Qed.

Lemma step_cases (st st' : state) (line : str) :
  step st line = Ok st' -> step_case st line st'.
Proof.
  unfold step.
  destruct (truthy (strip line)) eqn:Hne; simpl.
  - apply truthy_true in Hne.
    destruct (heading_candidate (strip line)) eqn:Hcand.
    + destruct (is_heading (strip line)) eqn:Hhead.
      * intros E; injection E as <-. apply case_heading; auto.
        unfold scene_line. now rewrite Hcand, Hhead.
      * apply cue_or_text_case; auto.
        -- unfold scene_line. now rewrite Hcand, Hhead.
        -- unfold after_candidate. now rewrite Hcand.
    + apply cue_or_text_case; auto.
      * unfold scene_line. now rewrite Hcand.
      * unfold after_candidate. now rewrite Hcand.
  - apply truthy_false in Hne.
    intros E; injection E as <-. now apply case_blank.
Qed.

End CasesOk.

(** ** The state invariant *)

Section Invariant.
Context {U : UnicodeData}.

Ltac split_ifs :=
  repeat match goal with
         | |- context [if ?c then _ else _] => destruct c eqn:?
         end.

Lemma invariant_initial : invariant initial.
Proof. split; simpl; intros; congruence. Qed.

Lemma invariant_flush_and_reset (st : state) : invariant (flush_and_reset st).
Proof. split; simpl; intros; congruence. Qed.

Lemma invariant_after_candidate (st : state) (s : str) :
  invariant st -> invariant (after_candidate st s).
Proof.
  unfold after_candidate. split_ifs; auto using invariant_flush_and_reset.
Qed.

Lemma invariant_step_case (st st' : state) (line : str) :
  step_case st line st' -> invariant st -> invariant st'.
Proof.
  intros Hcase Hinv.
  pose proof (invariant_after_candidate (strip line) Hinv) as Hinv1.
  inversion Hcase; subst.
  - split_ifs; auto using invariant_flush_and_reset.
  - assert (H1 : invariant (if pending st then flush_and_reset st else st))
      by (split_ifs; auto using invariant_flush_and_reset).
    destruct H1 as [Ha Hb]. split; simpl; auto.
  - split; simpl; intros; congruence.
  - split; simpl; [congruence|].
    destruct (truthy (dialogue_buffer (after_candidate st (strip line))))
      eqn:E; simpl; [congruence|].
    apply truthy_false in E. congruence.
  - destruct Hinv1 as [Ha Hb]. split; simpl; auto.
  - destruct Hinv1 as [Ha Hb]. split; simpl; auto.
Qed.

Lemma invariant_step (st : state) (line : str) :
  invariant st -> exists st', step st line = Ok st' /\ invariant st'.
Proof.
  intros Hinv. destruct (step_total st line) as [st' Hst'].
  exists st'. split; auto.
  eapply invariant_step_case; eauto using step_cases.
Qed.

Lemma invariant_run (lines : list str) :
  forall st, invariant st ->
  exists st', run st lines = Ok st' /\ invariant st'.
Proof.
  induction lines as [|line rest IH]; intros st Hinv; simpl; eauto.
  destruct (invariant_step line Hinv) as [st1 [-> Hinv1]]. simpl. auto.
Qed.

(** C9: the invariant (the in-dialogue flag implies a current character that
    is not [None]; a non-empty dialogue buffer implies the in-dialogue flag)
    holds before the first iteration of the main loop, every iteration
    started in a state that satisfies it ends, without an exception, in a
    state that satisfies it, and so it holds in the state the loop reaches
    on any list of lines. *)
Theorem assembler_invariant :
  invariant initial /\
  (forall st line, invariant st ->
     exists st', step st line = Ok st' /\ invariant st') /\
  (forall lines, exists st, run initial lines = Ok st /\ invariant st).
Proof.
  split; [apply invariant_initial|].
  split; [intros; now apply invariant_step|].
  intros lines. apply invariant_run, invariant_initial.
Qed.

End Invariant.

Lemma assembler_invariant_witness :
  let st := mkState [CHARACTER (lit "LUKE") None] None (Some (lit "LUKE"))
                    [lit "Hello"] true in
  invariant st /\
  exists st', step (U := AsciiData) st (lit "there.") = Ok st' /\ invariant st'.
Proof.
  intros st.
  assert (H : invariant st) by (split; simpl; intros; [discriminate | reflexivity]).
  split; [exact H|].
  exact (proj1 (proj2 (assembler_invariant (U := AsciiData)))
           st (lit "there.") H).
Defined.

(** ** Totality *)

Section Total.
Context {U : UnicodeData}.

Lemma assemble_total (lines : list str) :
  exists processed, assemble lines = Ok processed.
Proof.
  unfold assemble. destruct (run_total lines initial) as [st ->].
  simpl. eauto.
Qed.

(** C8: for every list of lines the first loop ends in a list of records
    without raising, and [process_lines] returns the consolidated list; the
    test of lines 118-119 never raises, whatever the line, since [line[0]]
    is read only when [line] is non-empty. *)
Theorem process_lines_total (lines : list str) :
  (exists processed,
     assemble lines = Ok processed /\
     process_lines lines = Ok (consolidate processed)) /\
  (forall line stripped, exists b, looks_like_action line stripped = Ok b).
Proof.
  split.
  - destruct (assemble_total lines) as [processed H].
    exists processed. split; auto.
    unfold process_lines. now rewrite H.
  - apply looks_like_action_total.
Qed.

End Total.

(** ** The consolidator, one record at a time *)

Lemma fold_cstep_snoc (l : list item) (x : item) (cs : cstate) :
  fold_left cstep (l ++ [x]) cs = cstep (fold_left cstep l cs) x.
Proof. now rewrite fold_left_app. Qed.

(** Induction over the records the second loop has read. *)
Lemma consolidate_ind (P : list item -> cstate -> Prop) :
  P [] cinitial ->
  (forall done cs it, P done cs -> P (done ++ [it]) (cstep cs it)) ->
  forall items, P items (fold_left cstep items cinitial).
Proof.
  intros H0 Hstep items. induction items as [|x l IH] using rev_ind; auto.
  rewrite fold_cstep_snoc. now apply Hstep.
Qed.

Lemma forallb_snoc {A} (f : A -> bool) (l : list A) (x : A) :
  forallb f (l ++ [x]) = forallb f l && f x.
Proof. rewrite forallb_app. simpl. now rewrite andb_true_r. Qed.

Lemma consolidate_dialogue_has_text (items : list item) :
  forallb dialogue_has_text items = true ->
  forallb dialogue_has_text (consolidate items) = true.
Proof.
  unfold consolidate, consolidate_from.
  pattern items, (fold_left cstep items cinitial).
  apply consolidate_ind; clear items.
  - reflexivity.
  - intros done cs it IH. rewrite forallb_snoc, andb_true_iff.
    intros [Hdone Hit]. specialize (IH Hdone). revert IH.
    unfold cfinish, cstep.
    destruct it, (truthy (action_buffer cs)) eqn:Hb; simpl;
      try destruct (opt_eqb (current_action_scene cs) scene); simpl;
      rewrite ?Hb, ?truthy_snoc, ?forallb_snoc; simpl;
      rewrite ?andb_true_r; auto;
      intros ->; simpl; auto.
Qed.

(** ** No DIALOGUE record without text *)

Section DialogueText.
Context {U : UnicodeData}.

Lemma dialogue_record_has_text (st : state) :
  texts_ok st -> truthy (dialogue_buffer st) = true ->
  dialogue_has_text (dialogue_record st) = true.
Proof.
  intros [Hbuf _] Hne. simpl. apply truthy_true.
  apply join_nonempty; auto. now apply truthy_true.
Qed.

Lemma texts_ok_flush_and_reset (st : state) :
  texts_ok st -> pending st = true -> texts_ok (flush_and_reset st).
Proof.
  intros Hok Hp. apply andb_true_iff in Hp as [_ Hp].
  split; simpl; [constructor|].
  rewrite forallb_snoc, (proj2 Hok). simpl.
  apply (dialogue_record_has_text Hok Hp).
Qed.

Lemma texts_ok_flush (st : state) :
  texts_ok st -> truthy (dialogue_buffer st) = true -> texts_ok (flush st).
Proof.
  intros Hok Hp. split; simpl; [constructor|].
  rewrite forallb_snoc, (proj2 Hok). simpl.
  apply (dialogue_record_has_text Hok Hp).
Qed.

Lemma texts_ok_append (st : state) (r : item) :
  texts_ok st -> dialogue_has_text r = true -> texts_ok (append r st).
Proof.
  intros [Ha Hb] Hr. split; simpl; auto.
  now rewrite forallb_snoc, Hb, Hr.
Qed.

Lemma texts_ok_after_candidate (st : state) (s : str) :
  texts_ok st -> texts_ok (after_candidate st s).
Proof.
  unfold after_candidate. intros Hok.
  destruct (heading_candidate s); simpl; auto.
  destruct (pending st) eqn:Hp; auto using texts_ok_flush_and_reset.
Qed.

Lemma texts_ok_step_case (st st' : state) (line : str) :
  step_case st line st' -> texts_ok st -> texts_ok st'.
Proof.
  intros Hcase Hok.
  pose proof (texts_ok_after_candidate (strip line) Hok) as Hok1.
  assert (Hok0 : texts_ok (if pending st then flush_and_reset st else st))
    by (destruct (pending st) eqn:Hp; auto using texts_ok_flush_and_reset).
  inversion Hcase; subst.
  - exact Hok0.
  - apply texts_ok_append; auto.
  - set (st1 := after_candidate st (strip line)) in *.
    assert (Hok2 : texts_ok (if pending st1 then flush st1 else st1)).
    { destruct (pending st1) eqn:Hp; auto.
      apply andb_true_iff in Hp as [_ Hp]. now apply texts_ok_flush. }
    destruct Hok2 as [Ha Hb]. split; simpl; auto.
    now rewrite forallb_snoc, Hb.
  - set (st1 := after_candidate st (strip line)) in *.
    assert (Hok2 : texts_ok (if truthy (dialogue_buffer st1)
                             then flush st1 else st1)).
    { destruct (truthy (dialogue_buffer st1)) eqn:Hp; auto.
      now apply texts_ok_flush. }
    destruct Hok2 as [Ha Hb]. split; simpl; auto.
    now rewrite forallb_snoc, Hb.
  - destruct Hok1 as [Ha Hb]. split; simpl; auto.
    apply Forall_app. split; auto.
  - apply texts_ok_append; auto.
Qed.

Lemma texts_ok_run (lines : list str) :
  forall st st', texts_ok st -> run st lines = Ok st' -> texts_ok st'.
Proof.
  induction lines as [|line rest IH]; intros st st' Hok; simpl.
  - intros E; injection E as <-; auto.
  - destruct (step st line) as [st1|] eqn:Hstep; simpl; [|discriminate].
    apply IH. eapply texts_ok_step_case; eauto using step_cases.
Qed.

Lemma assemble_dialogue_has_text (lines : list str) (processed : list item) :
  assemble lines = Ok processed ->
  forallb dialogue_has_text processed = true.
Proof.
  unfold assemble.
  destruct (run initial lines) as [st|] eqn:Hrun; simpl; [|discriminate].
  intros E; injection E as <-.
  assert (Hok : texts_ok st).
  { eapply texts_ok_run; eauto. split; simpl; auto. }
  unfold final_flush. destruct (pending st) eqn:Hp; [|apply Hok].
  apply andb_true_iff in Hp as [_ Hp].
  rewrite forallb_snoc, (proj2 Hok). simpl.
  apply (dialogue_record_has_text Hok Hp).
Qed.

(** C6: for every list of lines, the first loop returns a list of records
    in which no DIALOGUE record has an empty text, and so does
    [process_lines] after the consolidation. *)
Theorem no_empty_dialogue (lines : list str) :
  exists processed,
    assemble lines = Ok processed /\
    forallb dialogue_has_text processed = true /\
    process_lines lines = Ok (consolidate processed) /\
    forallb dialogue_has_text (consolidate processed) = true.
Proof.
  destruct (assemble_total lines) as [processed H].
  exists processed. pose proof (assemble_dialogue_has_text _ H) as Hd.
  repeat split; auto.
  - unfold process_lines. now rewrite H.
  - now apply consolidate_dialogue_has_text.
Qed.

End DialogueText.

(** ** Adjacent ACTION records of the consolidated list *)

Lemma last_action_scene_snoc (l : list item) (x : item) :
  last_action_scene (l ++ [x]) =
  match x with ACTION _ s => Some s | _ => None end.
Proof. unfold last_action_scene. now rewrite rev_app_distr. Qed.

Lemma separated_nil : separated [].
Proof. intros [|? ?] ? ? ? ? ? E; discriminate. Qed.

Lemma separated_snoc (l : list item) (x : item) :
  separated l ->
  (forall t s, x = ACTION t s -> last_action_scene l <> Some s) ->
  separated (l ++ [x]).
Proof.
  intros Hl Hx pre t1 s1 t2 s2 post E.
  destruct post as [|y post] using rev_ind.
  - change (pre ++ [ACTION t1 s1; ACTION t2 s2])
      with (pre ++ [ACTION t1 s1] ++ [ACTION t2 s2]) in E.
    rewrite app_assoc in E. apply app_inj_tail in E as [-> ->].
    specialize (Hx _ _ eq_refl). rewrite last_action_scene_snoc in Hx.
    congruence.
  - clear IHpost.
    change (pre ++ ACTION t1 s1 :: ACTION t2 s2 :: post ++ [y])
      with (pre ++ (ACTION t1 s1 :: ACTION t2 s2 :: post) ++ [y]) in E.
    rewrite app_assoc in E. apply app_inj_tail in E as [-> _].
    eapply Hl; eauto.
Qed.

Lemma separated_prefix (l1 l2 : list item) :
  separated (l1 ++ l2) -> separated l1.
Proof.
  intros H pre t1 s1 t2 s2 post ->.
  apply (H pre t1 s1 t2 s2 (post ++ l2)).
  now rewrite <- app_assoc.
Qed.

Lemma settled_initial : settled cinitial.
Proof.
  repeat split; simpl; auto using separated_nil; congruence.
Qed.

Lemma settled_cstep (cs : cstate) (it : item) :
  settled cs -> settled (cstep cs it).
Proof.
  intros (Hsep & Hfull & Hempty).
  assert (Hflush : truthy (action_buffer cs) = true ->
                   separated (consolidated_data cs ++ [action_record cs])).
  { intros Hb. apply separated_snoc; auto.
    intros t s E; injection E as _ <-. apply Hfull. now apply truthy_true. }
  assert (Hother : forall l, is_action it = false -> separated l ->
                             separated (l ++ [it])).
  { intros l Hit Hl. apply separated_snoc; auto.
    intros t s ->. discriminate. }
  assert (Hlast : forall l, is_action it = false ->
                            last_action_scene (l ++ [it]) = None).
  { intros l Hit. rewrite last_action_scene_snoc. now destruct it. }
  unfold settled, cstep.
  destruct it as [t0|t0 s0|t0 s0|t0 s0];
    try (destruct (truthy (action_buffer cs)) eqn:Hb; simpl;
         [ repeat split; auto; congruence
         | apply truthy_false in Hb; repeat split; auto; congruence ]).
  destruct (opt_eqb (current_action_scene cs) s0) eqn:Heq; simpl.
  - repeat split; auto.
    + intros _. destruct (action_buffer cs) eqn:Hb.
      * rewrite Hempty; congruence.
      * apply Hfull. congruence.
    + intros E. apply app_eq_nil in E as [_ E]. discriminate.
  - apply opt_eqb_neq in Heq.
    destruct (truthy (action_buffer cs)) eqn:Hb; repeat split; auto;
      try congruence; intros _.
    + rewrite last_action_scene_snoc. simpl. congruence.
    + apply truthy_false in Hb. rewrite (Hempty Hb). congruence.
Qed.

Lemma settled_fold (items : list item) :
  settled (fold_left cstep items cinitial).
Proof.
  pattern items, (fold_left cstep items cinitial).
  apply consolidate_ind; auto using settled_initial, settled_cstep.
Qed.

Lemma consolidate_separated (items : list item) :
  separated (consolidate items).
Proof.
  unfold consolidate, consolidate_from, cfinish.
  destruct (settled_fold items) as (Hsep & Hfull & _).
  destruct (truthy (action_buffer _)) eqn:Hb; auto.
  apply separated_snoc; auto.
  intros t s E; injection E as _ <-. apply Hfull. now apply truthy_true.
Qed.

(** C10: wherever two ACTION records are adjacent in the output of the
    consolidation, their scene values differ. *)
Theorem consolidated_actions_differ
  (items pre post : list item) (t1 t2 : str) (s1 s2 : option str) :
  consolidate items = pre ++ ACTION t1 s1 :: ACTION t2 s2 :: post ->
  s1 <> s2.
Proof. intros E. eapply consolidate_separated; eauto. Qed.

Lemma consolidated_actions_differ_witness :
  consolidate [ACTION (lit "Luke ducks.") None;
               ACTION (lit "Debris falls.") None;
               ACTION (lit "Vader enters.") (Some (lit "12 INT. HALLWAY"))]
  = [] ++ ACTION (lit "Luke ducks. Debris falls.") None
       :: ACTION (lit "Vader enters.") (Some (lit "12 INT. HALLWAY")) :: []
  /\ None <> Some (lit "12 INT. HALLWAY").
Proof.
  split; [reflexivity|].
  apply (@consolidated_actions_differ
           [ACTION (lit "Luke ducks.") None;
            ACTION (lit "Debris falls.") None;
            ACTION (lit "Vader enters.") (Some (lit "12 INT. HALLWAY"))]
           [] [] (lit "Luke ducks. Debris falls.") (lit "Vader enters.")).
  reflexivity.
Defined.

(** ** Idempotence of the consolidation *)

Lemma copied_cstep (done : list item) (cs : cstate) (it : item) :
  separated (done ++ [it]) -> copied done cs ->
  copied (done ++ [it]) (cstep cs it).
Proof.
  intros Hsep [(Hb & Hc & Hd & Hl) | (t & Hb & Hd)]; unfold copied, cstep.
  - rewrite Hb, Hc. destruct it as [t0|t0 s0|t0 s0|t0 s0]; simpl;
      try (left; rewrite last_action_scene_snoc; repeat split; congruence).
    destruct s0; simpl; right; exists t0; subst; split; reflexivity.
  - rewrite Hb. unfold action_record. rewrite Hb, join_single, <- Hd.
    destruct it as [t0|t0 s0|t0 s0|t0 s0]; simpl;
      try (left; rewrite last_action_scene_snoc; repeat split; congruence).
    destruct (opt_eqb (current_action_scene cs) s0) eqn:Heq; simpl.
    + apply opt_eqb_eq in Heq. exfalso.
      apply (Hsep (consolidated_data cs) t (current_action_scene cs)
                  t0 s0 []); auto.
      rewrite Hd, <- app_assoc. reflexivity.
    + right. exists t0. split; reflexivity.
Qed.

Lemma copied_fold (items : list item) :
  separated items -> copied items (fold_left cstep items cinitial).
Proof.
  pattern items, (fold_left cstep items cinitial).
  apply consolidate_ind.
  - intros _. left. repeat split.
  - intros done cs it IH Hsep. apply copied_cstep; auto.
    apply IH. eapply separated_prefix; eauto.
Qed.

Lemma consolidate_separated_id (items : list item) :
  separated items -> consolidate items = items.
Proof.
  intros Hsep. unfold consolidate, consolidate_from, cfinish.
  destruct (copied_fold Hsep) as [(Hb & Hc & Hd & Hl) | (t & Hb & Hd)].
  - rewrite Hb. simpl. exact Hd.
  - rewrite Hb. simpl. unfold action_record. rewrite Hb, join_single.
    now symmetry.
Qed.

(** C4: consolidating a consolidated list changes nothing. *)
Theorem consolidate_idempotent (items : list item) :
  consolidate (consolidate items) = consolidate items.
Proof. apply consolidate_separated_id, consolidate_separated. Qed.

(** ** Scene attachment *)

Lemma last_scene_snoc (l : list item) (x : item) :
  last_scene (l ++ [x]) =
  match x with SCENE t => Some t | _ => last_scene l end.
Proof. unfold last_scene. now rewrite fold_left_app. Qed.

Lemma attached_nil : attached [].
Proof. intros [|? ?] ? ? E; discriminate. Qed.

Lemma attached_snoc (l : list item) (x : item) :
  attached l ->
  (is_scene x = false -> get_scene x = last_scene l) ->
  attached (l ++ [x]).
Proof.
  intros Hl Hx pre r post E Hr.
  destruct post as [|y post] using rev_ind.
  - apply app_inj_tail in E as [-> ->]. auto.
  - clear IHpost.
    change (pre ++ r :: post ++ [y]) with (pre ++ (r :: post) ++ [y]) in E.
    rewrite app_assoc in E. apply app_inj_tail in E as [-> _].
    eapply Hl; eauto.
Qed.

Lemma attached_last (l : list item) (x : item) :
  attached (l ++ [x]) -> is_scene x = false -> get_scene x = last_scene l.
Proof. intros H. apply (H l x []). reflexivity. Qed.

Lemma attached_prefix (l1 l2 : list item) :
  attached (l1 ++ l2) -> attached l1.
Proof.
  intros H pre r post ->. apply (H pre r (post ++ l2)).
  now rewrite <- app_assoc.
Qed.

Section SceneAttachment.
Context {U : UnicodeData}.

Lemma tracked_ext (st st' : state) (r : item) :
  scene_tracked st -> is_scene r = false -> get_scene r = current_scene st ->
  processed_data st' = processed_data st ++ [r] ->
  current_scene st' = current_scene st ->
  scene_tracked st'.
Proof.
  intros [Ha Hl] Hr Hs Hp Hc. split; rewrite Hp.
  - apply attached_snoc; auto. congruence.
  - rewrite last_scene_snoc, Hc. destruct r; auto; discriminate.
Qed.

Lemma tracked_append (st : state) (r : item) :
  scene_tracked st -> is_scene r = false -> get_scene r = current_scene st ->
  scene_tracked (append r st).
Proof. intros. now apply (@tracked_ext st _ r). Qed.

Lemma tracked_emit_scene (st : state) (s : str) :
  scene_tracked st -> scene_tracked (emit_scene s st).
Proof.
  intros [Ha Hl]. split; simpl.
  - apply attached_snoc; auto. discriminate.
  - now rewrite last_scene_snoc.
Qed.

Lemma tracked_flush (st : state) :
  scene_tracked st -> scene_tracked (flush st).
Proof. intros. now apply (@tracked_ext st _ (dialogue_record st)). Qed.

Lemma tracked_flush_and_reset (st : state) :
  scene_tracked st -> scene_tracked (flush_and_reset st).
Proof. intros. now apply (@tracked_ext st _ (dialogue_record st)). Qed.

Lemma tracked_after_candidate (st : state) (s : str) :
  scene_tracked st -> scene_tracked (after_candidate st s).
Proof.
  unfold after_candidate. intros H.
  destruct (heading_candidate s && pending st);
    auto using tracked_flush_and_reset.
Qed.

Lemma tracked_step_case (st st' : state) (line : str) :
  step_case st line st' -> scene_tracked st -> scene_tracked st'.
Proof.
  intros Hcase Hok.
  pose proof (tracked_after_candidate (strip line) Hok) as Hok1.
  assert (Hok0 : scene_tracked (if pending st then flush_and_reset st else st))
    by (destruct (pending st); auto using tracked_flush_and_reset).
  inversion Hcase; subst.
  - exact Hok0.
  - now apply tracked_emit_scene.
  - set (st1 := after_candidate st (strip line)) in *.
    assert (Hok2 : scene_tracked (if pending st1 then flush st1 else st1))
      by (destruct (pending st1); auto using tracked_flush).
    now apply (@tracked_ext (if pending st1 then flush st1 else st1) _
                 (CHARACTER (clean (strip line))
                    (current_scene (if pending st1 then flush st1 else st1)))).
  - set (st1 := after_candidate st (strip line)) in *.
    assert (Hok2 : scene_tracked (if truthy (dialogue_buffer st1)
                                  then flush st1 else st1))
      by (destruct (truthy (dialogue_buffer st1)); auto using tracked_flush).
    now apply (@tracked_ext (if truthy (dialogue_buffer st1)
                             then flush st1 else st1) _
                 (ACTION (strip line)
                    (current_scene (if truthy (dialogue_buffer st1)
                                    then flush st1 else st1)))).
  - exact Hok1.
  - now apply tracked_append.
Qed.

Lemma tracked_run (lines : list str) :
  forall st st', scene_tracked st -> run st lines = Ok st' -> scene_tracked st'.
Proof.
  induction lines as [|line rest IH]; intros st st' Hok; simpl.
  - intros E; injection E as <-; auto.
  - destruct (step st line) as [st1|] eqn:Hstep; simpl; [|discriminate].
    apply IH. eapply tracked_step_case; eauto using step_cases.
Qed.

Lemma assemble_attached (lines : list str) (processed : list item) :
  assemble lines = Ok processed -> attached processed.
Proof.
  unfold assemble.
  destruct (run initial lines) as [st|] eqn:Hrun; simpl; [|discriminate].
  intros E; injection E as <-.
  assert (Hok : scene_tracked st).
  { eapply tracked_run; eauto. split; [apply attached_nil | reflexivity]. }
  unfold final_flush. destruct (pending st); [|apply Hok].
  apply (tracked_flush Hok).
Qed.

End SceneAttachment.

Lemma scene_kept_cstep (done : list item) (cs : cstate) (it : item) :
  attached (done ++ [it]) -> scene_kept done cs ->
  scene_kept (done ++ [it]) (cstep cs it).
Proof.
  intros Hit (Ha & Hl & Hc).
  pose proof (attached_last _ _ Hit) as Hx.
  assert (Hflush : truthy (action_buffer cs) = true ->
                   attached (consolidated_data cs ++ [action_record cs])).
  { intros Hb. apply attached_snoc; auto. intros _. simpl.
    rewrite Hl. apply Hc. now apply truthy_true. }
  assert (Hls : forall l, last_scene l = last_scene done ->
                          last_scene (l ++ [it]) = last_scene (done ++ [it]))
    by (intros l E; rewrite !last_scene_snoc; destruct it; congruence).
  assert (Hat : forall l, attached l -> last_scene l = last_scene done ->
                          attached (l ++ [it]))
    by (intros l Hal E; apply attached_snoc; auto; intros; rewrite E; auto).
  assert (Hother : is_action it = false ->
                   scene_kept (done ++ [it]) (cstep cs it)).
  { intros Hna.
    assert (Hcs : cstep cs it =
                  if truthy (action_buffer cs)
                  then mkCState ((consolidated_data cs ++ [action_record cs])
                                   ++ [it]) [] None
                  else mkCState (consolidated_data cs ++ [it])
                                (action_buffer cs) (current_action_scene cs))
      by (destruct it; try reflexivity; discriminate).
    rewrite Hcs. unfold scene_kept.
    destruct (truthy (action_buffer cs)) eqn:Hb; simpl.
    - split; [|split].
      + apply Hat; auto. rewrite last_scene_snoc. exact Hl.
      + apply Hls. rewrite last_scene_snoc. exact Hl.
      + intros H. now elim H.
    - apply truthy_false in Hb. split; [|split]; auto. congruence. }
  destruct it as [t0|t0 s0|t0 s0|t0 s0]; try (now apply Hother).
  clear Hother. unfold scene_kept, cstep.
  specialize (Hx eq_refl). simpl in Hx.
  rewrite last_scene_snoc.
  destruct (opt_eqb (current_action_scene cs) s0) eqn:Heq; simpl.
  - repeat split; auto. intros _. now apply opt_eqb_eq in Heq; subst.
  - destruct (truthy (action_buffer cs)) eqn:Hb; repeat split; auto.
    rewrite last_scene_snoc. simpl. exact Hl.
Qed.

Lemma scene_kept_fold (items : list item) :
  attached items -> scene_kept items (fold_left cstep items cinitial).
Proof.
  pattern items, (fold_left cstep items cinitial).
  apply consolidate_ind.
  - intros _. repeat split; auto using attached_nil; intros H; now elim H.
  - intros done cs it IH Hatt. apply scene_kept_cstep; auto.
    apply IH. eapply attached_prefix; eauto.
Qed.

Lemma consolidate_attached (items : list item) :
  attached items -> attached (consolidate items).
Proof.
  intros Hatt. unfold consolidate, consolidate_from, cfinish.
  destruct (scene_kept_fold Hatt) as (Ha & Hl & Hc).
  destruct (truthy (action_buffer _)) eqn:Hb; auto.
  apply attached_snoc; auto. intros _. simpl.
  rewrite Hl. apply Hc. now apply truthy_true.
Qed.

(** C2: for every list of lines, in the list of records the first loop
    returns and in the consolidated list that [process_lines] returns, each
    CHARACTER, DIALOGUE and ACTION record carries as its scene the text of
    the last SCENE record before it, the SCENE record most recently appended
    when the record was built, and [None] when no SCENE record precedes
    it. *)
Theorem scene_attachment {U : UnicodeData} (lines : list str) :
  exists processed,
    assemble lines = Ok processed /\
    process_lines lines = Ok (consolidate processed) /\
    attached processed /\
    attached (consolidate processed).
Proof.
  destruct (assemble_total lines) as [processed H].
  exists processed. pose proof (assemble_attached _ H) as Ha.
  repeat split; auto using consolidate_attached.
  unfold process_lines. now rewrite H.
Qed.

(** ** Text content is kept *)

Lemma nows_app (a b : str) : nows (a ++ b) = nows a ++ nows b.
Proof. apply filter_app. Qed.

Lemma nows_join (l : list str) :
  nows (join (lit " ") l) = concat (map nows l).
Proof.
  induction l as [|x [|y t] IH].
  - reflexivity.
  - simpl. now rewrite app_nil_r.
  - change (join (lit " ") (x :: y :: t))
      with (x ++ lit " " ++ join (lit " ") (y :: t)).
    rewrite !nows_app, IH. reflexivity.
Qed.

Lemma all_text_snoc (l : list item) (r : item) :
  all_text (l ++ [r]) = all_text l ++ text_of r.
Proof.
  unfold all_text. rewrite map_app, concat_app. simpl. now rewrite app_nil_r.
Qed.

Lemma concat_nows_snoc (l : list str) (x : str) :
  concat (map nows (l ++ [x])) = concat (map nows l) ++ nows x.
Proof. rewrite map_app, concat_app. simpl. now rewrite app_nil_r. Qed.

Lemma startswith_app (p r : str) : startswith (p ++ r) p = true.
Proof.
  induction p as [|c p IH]; [reflexivity|].
  cbn [app startswith]. now rewrite N.eqb_refl, IH.
Qed.

Lemma contains_eq (x s : str) :
  contains x s =
  startswith s x || match s with [] => false | _ :: t => contains x t end.
Proof. destruct s; reflexivity. Qed.

Lemma contains_app (x a b : str) : contains x (a ++ x ++ b) = true.
Proof.
  induction a as [|c a IH].
  - simpl app. now rewrite contains_eq, startswith_app.
  - change (contains x ((c :: a) ++ x ++ b))
      with (startswith (c :: a ++ x ++ b) x || contains x (a ++ x ++ b)).
    rewrite IH. apply orb_true_r.
Qed.

Lemma contains_concat {A} (f : A -> str) (l : list A) (x : A) :
  In x l -> contains (f x) (concat (map f l)) = true.
Proof.
  intros Hin. apply in_split in Hin as (l1 & l2 & ->).
  rewrite map_app, concat_app. simpl. apply contains_app.
Qed.

Lemma cflat_mk (cd : list item) (buf : list str) (cur : option str) :
  cflat (mkCState cd buf cur) = nows (all_text cd) ++ concat (map nows buf).
Proof. reflexivity. Qed.

Lemma cflat_cstep (cs : cstate) (it : item) :
  cflat (cstep cs it) = cflat cs ++ nows (text_of it).
Proof.
  assert (Hflush : nows (all_text (consolidated_data cs ++ [action_record cs]))
                   = cflat cs).
  { rewrite all_text_snoc, nows_app. simpl text_of. now rewrite nows_join. }
  assert (Hempty : truthy (action_buffer cs) = false ->
                   nows (all_text (consolidated_data cs)) = cflat cs /\
                   action_buffer cs = []).
  { intros Hb. apply truthy_false in Hb. unfold cflat. rewrite Hb.
    simpl. now rewrite app_nil_r. }
  assert (Hother : is_action it = false ->
                   cflat (cstep cs it) = cflat cs ++ nows (text_of it)).
  { intros Hna.
    assert (Hcs : cstep cs it =
                  (if truthy (action_buffer cs)
                   then mkCState ((consolidated_data cs ++ [action_record cs])
                                    ++ [it]) [] None
                   else mkCState (consolidated_data cs ++ [it])
                                 (action_buffer cs) (current_action_scene cs)))
      by (destruct it; try reflexivity; discriminate).
    rewrite Hcs.
    destruct (truthy (action_buffer cs)) eqn:Hb;
      rewrite cflat_mk, all_text_snoc, nows_app.
    - rewrite Hflush. simpl. now rewrite app_nil_r.
    - destruct (Hempty eq_refl) as [-> ->]. simpl. now rewrite app_nil_r. }
  destruct it as [t0|t0 s0|t0 s0|t0 s0]; try (now apply Hother).
  clear Hother. unfold cstep.
  destruct (opt_eqb (current_action_scene cs) s0).
  - rewrite cflat_mk, concat_nows_snoc, app_assoc. reflexivity.
  - destruct (truthy (action_buffer cs)) eqn:Hb; rewrite cflat_mk;
      simpl map; simpl concat; rewrite app_nil_r.
    + now rewrite Hflush.
    + now destruct (Hempty eq_refl) as [-> _].
Qed.

Lemma consolidate_text (items : list item) :
  nows (all_text (consolidate items)) = nows (all_text items).
Proof.
  assert (H : cflat (fold_left cstep items cinitial) = nows (all_text items)).
  { pattern items, (fold_left cstep items cinitial).
    apply consolidate_ind.
    - reflexivity.
    - intros done cs it IH.
      now rewrite cflat_cstep, IH, all_text_snoc, nows_app. }
  unfold consolidate, consolidate_from, cfinish. rewrite <- H.
  destruct (truthy (action_buffer _)) eqn:Hb.
  - rewrite all_text_snoc, nows_app. simpl. now rewrite nows_join.
  - apply truthy_false in Hb. unfold cflat. rewrite Hb. simpl.
    now rewrite app_nil_r.
Qed.

Section TextKept.
Context {U : UnicodeData}.

Lemma is_cue_nonempty (c : str) : is_cue c = true -> truthy c = true.
Proof.
  unfold is_cue. destruct c; [|reflexivity].
  simpl. discriminate.
Qed.

Lemma well_formed_initial : well_formed initial.
Proof. split; simpl; intros; congruence. Qed.

Lemma well_formed_flush_and_reset (st : state) :
  well_formed (flush_and_reset st).
Proof. split; simpl; intros; congruence. Qed.

Lemma well_formed_after_candidate (st : state) (s : str) :
  well_formed st -> well_formed (after_candidate st s).
Proof.
  unfold after_candidate.
  destruct (heading_candidate s && pending st);
    auto using well_formed_flush_and_reset.
Qed.

Lemma well_formed_step_case (st st' : state) (line : str) :
  step_case st line st' -> well_formed st -> well_formed st'.
Proof.
  intros Hcase Hwf.
  pose proof (well_formed_after_candidate (strip line) Hwf) as Hwf1.
  assert (Hwf0 : well_formed (if pending st then flush_and_reset st else st))
    by (destruct (pending st); auto using well_formed_flush_and_reset).
  inversion Hcase; subst.
  - exact Hwf0.
  - destruct Hwf0 as [Ha Hb]. split; simpl; auto.
  - split; simpl; intros; auto.
    apply is_cue_nonempty.
    unfold cue_line in *. now destruct (scene_line (strip line)).
  - split; simpl; [congruence|].
    destruct (truthy (dialogue_buffer (after_candidate st (strip line))))
      eqn:E; simpl; [congruence|].
    apply truthy_false in E. congruence.
  - destruct Hwf1 as [Ha Hb]. split; simpl; auto.
  - destruct Hwf1 as [Ha Hb]. split; simpl; auto.
Qed.

(** Outside dialogue mode, or once the pending dialogue is flushed, the
    buffer is empty. *)
Lemma well_formed_idle (st : state) :
  well_formed st -> pending st = false -> dialogue_buffer st = [].
Proof.
  intros [_ Hb] Hp. unfold pending in Hp.
  destruct (dialogue_buffer st) as [|x b]; auto.
  rewrite Hb in Hp by discriminate. discriminate.
Qed.

Lemma flat_mk (p : list item) (sc ch : option str) (b : list str) (m : bool) :
  flat (mkState p sc ch b m) = nows (all_text p) ++ concat (map nows b).
Proof. reflexivity. Qed.

Lemma flat_flush (st : state) : flat (flush st) = flat st.
Proof.
  unfold flush, set_buffer, append, dialogue_record. cbn [processed_data].
  rewrite flat_mk, all_text_snoc, nows_app. simpl text_of.
  rewrite nows_join. simpl. now rewrite app_nil_r.
Qed.

Lemma flat_flush_and_reset (st : state) : flat (flush_and_reset st) = flat st.
Proof. exact (flat_flush st). Qed.

Lemma flat_after_candidate (st : state) (s : str) :
  flat (after_candidate st s) = flat st.
Proof.
  unfold after_candidate.
  destruct (heading_candidate s && pending st);
    auto using flat_flush_and_reset.
Qed.

(** A record appended while the buffer is empty. *)
Lemma flat_record (st st' : state) (r : item) :
  dialogue_buffer st = [] -> dialogue_buffer st' = [] ->
  processed_data st' = processed_data st ++ [r] ->
  flat st' = flat st ++ nows (text_of r).
Proof.
  intros Hb Hb' Hp. unfold flat. rewrite Hb, Hb', Hp, all_text_snoc, nows_app.
  simpl. now rewrite !app_nil_r.
Qed.

Lemma kept_blank (line : str) : strip line = [] -> nows (kept line) = [].
Proof. unfold kept. intros ->. reflexivity. Qed.

Lemma kept_scene (line : str) :
  scene_line (strip line) = true -> kept line = strip line.
Proof. unfold kept, cue_line. now intros ->. Qed.

Ltac rw_cue :=
  match goal with H : cue_line _ = _ |- _ => rewrite H end.

Lemma flat_step_case (st st' : state) (line : str) :
  step_case st line st' -> well_formed st ->
  flat st' = flat st ++ nows (kept line).
Proof.
  intros Hcase Hwf.
  pose proof (well_formed_after_candidate (strip line) Hwf) as Hwf1.
  pose proof (flat_after_candidate st (strip line)) as Hf1.
  assert (Hst0 : flat (if pending st then flush_and_reset st else st) = flat st
               /\ dialogue_buffer (if pending st then flush_and_reset st
                                   else st) = []).
  { destruct (pending st) eqn:Hp; split;
      auto using flat_flush_and_reset, well_formed_idle. }
  inversion Hcase; subst.
  - rewrite kept_blank, app_nil_r by assumption. apply Hst0.
  - rewrite kept_scene by assumption. destruct Hst0 as [<- Hb].
    now apply (@flat_record _ _ (SCENE (strip line))).
  - set (st1 := after_candidate st (strip line)) in *.
    assert (Hst2 : flat (if pending st1 then flush st1 else st1) = flat st
                 /\ dialogue_buffer (if pending st1 then flush st1
                                     else st1) = []).
    { rewrite <- Hf1. destruct (pending st1) eqn:Hp; split;
        auto using flat_flush, well_formed_idle. }
    destruct Hst2 as [<- Hb]. unfold kept. rw_cue.
    now apply (@flat_record _ _ (CHARACTER (clean (strip line))
                 (current_scene (if pending st1 then flush st1 else st1)))).
  - set (st1 := after_candidate st (strip line)) in *.
    assert (Hst2 : flat (if truthy (dialogue_buffer st1) then flush st1
                       else st1) = flat st
                 /\ dialogue_buffer (if truthy (dialogue_buffer st1)
                                     then flush st1 else st1) = []).
    { rewrite <- Hf1. destruct (truthy (dialogue_buffer st1)) eqn:Hp; split;
        auto using flat_flush. now apply truthy_false. }
    destruct Hst2 as [<- Hb]. unfold kept. rw_cue.
    now apply (@flat_record _ _ (ACTION (strip line)
                 (current_scene (if truthy (dialogue_buffer st1)
                                 then flush st1 else st1)))).
  - unfold kept. rw_cue. rewrite <- Hf1.
    unfold set_buffer. rewrite flat_mk, concat_nows_snoc, app_assoc.
    reflexivity.
  - unfold kept. rw_cue. rewrite <- Hf1.
    assert (Hb1 : dialogue_buffer (after_candidate st (strip line)) = []).
    { apply well_formed_idle; auto. unfold pending.
      destruct (in_dialogue_mode (after_candidate st (strip line))) eqn:Hm;
        auto.
      destruct Hwf1 as [Ha _].
      match goal with
      | H : _ && truthy_opt _ = false |- _ =>
          rewrite (Ha Hm) in H; discriminate
      end. }
    now apply (@flat_record _ _ (ACTION (strip line)
                 (current_scene (after_candidate st (strip line))))).
Qed.

Lemma flat_run (lines : list str) :
  forall st, well_formed st ->
  exists st', run st lines = Ok st' /\ well_formed st' /\
              flat st' = flat st ++ concat (map (fun l => nows (kept l)) lines).
Proof.
  induction lines as [|line rest IH]; intros st Hwf; simpl.
  - exists st. now rewrite app_nil_r.
  - destruct (step_total st line) as [st1 Hstep]. rewrite Hstep. simpl.
    apply step_cases in Hstep.
    destruct (IH st1) as (st' & Hrun & Hwf' & Hflat).
    { eapply well_formed_step_case; eauto. }
    exists st'. split; [exact Hrun|]. split; [exact Hwf'|].
    now rewrite Hflat, (flat_step_case Hstep Hwf), app_assoc.
Qed.

Lemma final_flush_text (st : state) :
  well_formed st -> nows (all_text (final_flush st)) = flat st.
Proof.
  intros Hwf. unfold final_flush.
  destruct (pending st) eqn:Hp.
  - rewrite all_text_snoc, nows_app. simpl text_of. now rewrite nows_join.
  - unfold flat. rewrite (well_formed_idle Hwf Hp). simpl.
    now rewrite app_nil_r.
Qed.

(** The text of the records, whitespace apart, is the text the lines
    contribute, in the order of the lines. *)
Lemma process_lines_text (lines : list str) :
  exists out,
    process_lines lines = Ok out /\
    nows (all_text out) = concat (map (fun l => nows (kept l)) lines).
Proof.
  destruct (flat_run lines well_formed_initial) as (st & Hrun & Hwf & Hflat).
  exists (consolidate (final_flush st)). split.
  - unfold process_lines, assemble. now rewrite Hrun.
  - now rewrite consolidate_text, final_flush_text, Hflat.
Qed.

(** C1, amended: for every list of lines, the text of the records that
    [process_lines] returns, whitespace apart, contains what every
    non-blank line contributes: the trimmed content of a line that is not
    emitted as a CHARACTER record, and the cleaned name, that is the trimmed
    content without its continuation markers, of a line that is. *)
Theorem text_kept (lines : list str) (line : str) :
  In line lines -> strip line <> [] ->
  exists out,
    process_lines lines = Ok out /\
    contains (nows (kept line)) (nows (all_text out)) = true.
Proof.
  intros Hin _. destruct (process_lines_text lines) as (out & Hout & Htext).
  exists out. split; auto. rewrite Htext.
  now apply (contains_concat (fun l => nows (kept l))).
Qed.

End TextKept.

Lemma text_kept_witness :
  In luke_contd [luke_contd; lit "  I have a bad feeling "] /\
  strip luke_contd <> [] /\
  exists out,
    process_lines (U := AsciiData)
      [luke_contd; lit "  I have a bad feeling "] = Ok out /\
    contains (nows (kept (U := AsciiData) luke_contd)) (nows (all_text out))
    = true.
Proof.
  assert (Hin : In luke_contd [luke_contd; lit "  I have a bad feeling "])
    by (left; reflexivity).
  assert (Hne : strip luke_contd <> []) by (vm_compute; discriminate).
  split; [exact Hin|]. split; [exact Hne|].
  exact (@text_kept AsciiData _ _ Hin Hne).
Defined.

(** C1 as stated fails: the line [LUKE (CONT'D)] is emitted as the
    CHARACTER record [LUKE], and its trimmed content, whitespace apart, is
    not contained in the text of the records. *)
Lemma text_lost_counterexample :
  In luke_contd [luke_contd] /\
  strip luke_contd <> [] /\
  process_lines (U := AsciiData) [luke_contd] = Ok [CHARACTER luke None] /\
  contains (nows (strip luke_contd)) (nows (all_text [CHARACTER luke None]))
  = false.
Proof.
  split; [left; reflexivity|].
  split; [vm_compute; discriminate|].
  split; vm_compute; reflexivity.
Qed.

(** ** Blank lines *)

Section Blank.
Context {U : UnicodeData}.

Lemma blank_line_step (st : state) (line : str) :
  strip line = [] ->
  step st line = Ok (if pending st then flush_and_reset st else st).
Proof. unfold step. now intros ->. Qed.

(** With dialogue in the buffer, a blank line appends the DIALOGUE record,
    and nothing else, and leaves dialogue mode. *)
Lemma blank_line_flushes (st : state) (line : str) :
  strip line = [] -> in_dialogue_mode st = true -> dialogue_buffer st <> [] ->
  exists st',
    step st line = Ok st' /\
    processed_data st' = processed_data st ++ [dialogue_record st] /\
    dialogue_buffer st' = [] /\
    current_character st' = None /\
    in_dialogue_mode st' = false.
Proof.
  intros Hs Hm Hb. rewrite (@blank_line_step st line Hs). unfold pending.
  rewrite Hm, (proj2 (truthy_true _) Hb). simpl. eauto 6.
Qed.

(** With an empty buffer, a blank line changes nothing: the character and
    the flag stay. *)
Lemma blank_line_keeps_cue (st : state) (line : str) :
  strip line = [] -> dialogue_buffer st = [] -> step st line = Ok st.
Proof.
  intros Hs Hb. rewrite (@blank_line_step st line Hs). unfold pending.
  rewrite Hb. simpl. now rewrite andb_false_r.
Qed.

End Blank.

(** C3 at the blank line that follows a cue: the loop stays in dialogue
    mode with the character [LUKE], and the next line is emitted as
    dialogue of that character. *)
Theorem blank_after_cue :
  step (U := AsciiData) luke_cued (lit "") = Ok luke_cued /\
  in_dialogue_mode luke_cued = true /\
  current_character luke_cued = Some luke /\
  run (U := AsciiData) initial [luke; lit ""] = Ok luke_cued /\
  process_lines (U := AsciiData) [luke; lit ""; lit "Hello there"]
  = Ok [CHARACTER luke None; DIALOGUE (lit "Hello there") None].
Proof. repeat split; vm_compute; reflexivity. Qed.

(** ** Short upper-case lines in dialogue mode *)

Section ShortCapsOk.
Context {U : UnicodeData}.

(** C5, amended: a short upper-case line that is neither heading nor cue,
    read in dialogue mode with an active cue, and that does not look like
    action, is appended to the dialogue buffer when the buffer is empty;
    when the buffer holds dialogue, the flush of lines 60-68 has appended
    the DIALOGUE record and left dialogue mode, and the line is appended as
    an ACTION record. *)
Theorem short_caps_in_dialogue (st : state) (line : str) :
  short_caps_text line ->
  in_dialogue_mode st = true ->
  truthy_opt (current_character st) = true ->
  looks_like_action line (strip line) = Ok false ->
  step st line =
  Ok (if truthy (dialogue_buffer st)
      then append (ACTION (strip line) (current_scene st)) (flush_and_reset st)
      else set_buffer (dialogue_buffer st ++ [strip line]) st).
Proof.
  intros (Hup & Hlo & Hhi & Hdig & Hmark & Hcue) Hm Hch Hact.
  unfold step.
  assert (Hne : truthy (strip line) = true)
    by (destruct (strip line); [simpl in Hlo; lia | reflexivity]).
  rewrite Hne. simpl negb. cbv iota.
  assert (Hcand : heading_candidate (strip line) = true).
  { unfold heading_candidate. rewrite Hup. simpl.
    now apply Nat.ltb_lt. }
  assert (Hhead : is_heading (strip line) = false).
  { unfold is_heading. rewrite Hdig, Hmark. simpl.
    apply Nat.ltb_ge. lia. }
  rewrite Hcand, Hhead. unfold cue_or_text. rewrite Hcue.
  unfold dialogue_or_action, pending. rewrite Hm. simpl andb.
  destruct (truthy (dialogue_buffer st)) eqn:Hb.
  - reflexivity.
  - rewrite Hm, Hch, Hact. reflexivity.
Qed.

End ShortCapsOk.

Lemma fade_out_short_caps : short_caps_text (U := AsciiData) fade_out.
Proof.
  unfold short_caps_text.
  repeat split; try (vm_compute; reflexivity); vm_compute; lia.
Defined.

Lemma short_caps_in_dialogue_witness :
  short_caps_text (U := AsciiData) fade_out /\
  in_dialogue_mode luke_speaking = true /\
  truthy_opt (current_character luke_speaking) = true /\
  looks_like_action (U := AsciiData) fade_out (strip fade_out) = Ok false /\
  step (U := AsciiData) luke_speaking fade_out =
  Ok (mkState [CHARACTER luke None; DIALOGUE (lit "Hi") None;
               ACTION fade_out None] None None [] false).
Proof.
  split; [exact fade_out_short_caps|].
  split; [reflexivity|]. split; [reflexivity|]. split; [reflexivity|].
  exact (@short_caps_in_dialogue AsciiData luke_speaking fade_out
           fade_out_short_caps eq_refl eq_refl eq_refl).
Defined.

(** C5 as stated fails: with [Hi] in the buffer, the line [FADE OUT]
    flushes the buffer and is emitted as an ACTION record. *)
Lemma short_caps_counterexample :
  short_caps_text (U := AsciiData) fade_out /\
  in_dialogue_mode luke_speaking = true /\
  truthy_opt (current_character luke_speaking) = true /\
  looks_like_action (U := AsciiData) fade_out (strip fade_out) = Ok false /\
  step (U := AsciiData) luke_speaking fade_out =
  Ok (mkState [CHARACTER luke None; DIALOGUE (lit "Hi") None;
               ACTION fade_out None] None None [] false) /\
  step (U := AsciiData) luke_speaking fade_out <>
  Ok (set_buffer (dialogue_buffer luke_speaking ++ [strip fade_out])
                 luke_speaking).
Proof.
  split; [exact fade_out_short_caps|].
  repeat split; try reflexivity.
  vm_compute. discriminate.
Qed.

(** ** The continuation marker *)

Lemma contains_single (c : char) (s : str) :
  contains [c] s = true -> In c s.
Proof.
  induction s as [|y s IH]; simpl.
  - discriminate.
  - rewrite andb_true_r. intros H. apply orb_true_iff in H as [H|H].
    + apply N.eqb_eq in H. now left.
    + right. now apply IH.
Qed.

Lemma one_of_cases (u l : string) (c : char) :
  one_of u l c = true -> In c (lit u ++ lit l).
Proof.
  unfold one_of. intros H. apply in_or_app.
  apply orb_true_iff in H as [H|H]; [left|right]; now apply contains_single.
Qed.

(** The strings the marker pattern matches, without the leading
    whitespace: the four letters in either case, an optional straight or
    curly apostrophe, the last letter in either case, between
    parentheses. *)
Lemma contd_marker_cases (a : str) :
  contd_marker a = true ->
  exists c o n t d,
    In c (lit "Cc") /\ In o (lit "Oo") /\ In n (lit "Nn") /\
    In t (lit "Tt") /\ In d (lit "Dd") /\
    (a = lit "(" ++ [c; o; n; t] ++ lit "'" ++ [d] ++ lit ")" \/
     a = lit "(" ++ [c; o; n; t] ++ [rsquo] ++ [d] ++ lit ")" \/
     a = lit "(" ++ [c; o; n; t] ++ [d] ++ lit ")").
Proof.
  unfold contd_marker, match_marker.
  destruct a as [|p [|c [|o [|n [|t r]]]]]; try discriminate.
  destruct (N.eqb_spec p 40) as [->|]; [|discriminate]. simpl andb.
  destruct (one_of "C" "c" c) eqn:Hc; [|discriminate].
  destruct (one_of "O" "o" o) eqn:Ho; [|discriminate].
  destruct (one_of "N" "n" n) eqn:Hn; [|discriminate].
  destruct (one_of "T" "t" t) eqn:Ht; [|discriminate]. simpl andb.
  apply one_of_cases in Hc, Ho, Hn, Ht.
  destruct r as [|q [|d [|e r]]]; try discriminate.
  - destruct (one_of "D" "d" q) eqn:Hd; [|discriminate].
    destruct (N.eqb_spec d 41) as [->|]; [|discriminate].
    intros _. apply one_of_cases in Hd.
    exists c, o, n, t, q. repeat split; auto.
  - destruct ((q =? 39) || (q =? rsquo))%N eqn:Hq.
    + destruct (one_of "D" "d" d) eqn:Hd; [|discriminate].
      destruct (N.eqb_spec e 41) as [->|]; [|discriminate].
      destruct r; [|discriminate]. intros _. apply one_of_cases in Hd.
      exists c, o, n, t, d. repeat split; auto.
      apply orb_true_iff in Hq as [Hq|Hq]; apply N.eqb_eq in Hq; subst; auto.
    + destruct (one_of "D" "d" q) eqn:Hd; [|discriminate].
      destruct (N.eqb_spec d 41) as [->|]; [|discriminate].
      discriminate.
Qed.

(** C7: the line [LUKE] followed by a space and the continuation marker,
    with its letters in either case and a straight, a curly or no
    apostrophe, gives the single record CHARACTER [LUKE]. *)
Theorem luke_contd_cue (a : str) :
  contd_marker a = true ->
  process_lines (U := AsciiData) [lit "LUKE " ++ a]
  = Ok [CHARACTER (lit "LUKE") None].
Proof.
  intros H.
  destruct (contd_marker_cases a H)
    as (c & o & n & t & d & Hc & Ho & Hn & Ht & Hd & Ha).
  simpl in Hc, Ho, Hn, Ht, Hd.
  destruct Hc as [<-|[<-|[]]]; destruct Ho as [<-|[<-|[]]];
    destruct Hn as [<-|[<-|[]]]; destruct Ht as [<-|[<-|[]]];
    destruct Hd as [<-|[<-|[]]]; destruct Ha as [->|[->| ->]];
    vm_compute; reflexivity.
Qed.

Lemma luke_contd_cue_witness :
  contd_marker (lit "(CONT'D)") = true /\
  process_lines (U := AsciiData) [lit "LUKE " ++ lit "(CONT'D)"]
  = Ok [CHARACTER (lit "LUKE") None].
Proof.
  split; [reflexivity|].
  exact (@luke_contd_cue (lit "(CONT'D)") eq_refl).
Defined.

Example luke_contd_scenario :
  process_lines (U := AsciiData) [luke_contd] = Ok [CHARACTER luke None].
Proof. vm_compute. reflexivity. Qed.

Section CueName.
Context {U : UnicodeData}.

(** The marker is removed before the cue tests, and the record of a cue
    carries the cleaned name: for a line that is not a scene heading and
    whose cleaned text passes the tests of lines 92 and 94, the iteration
    ends with the record CHARACTER of that cleaned text, which is also the
    current character. *)
Lemma cue_carries_clean_name (st : state) (line : str) :
  strip line <> [] -> cue_line (strip line) = true ->
  exists st' before,
    step st line = Ok st' /\
    processed_data st' =
      before ++ [CHARACTER (clean (strip line)) (current_scene st)] /\
    current_character st' = Some (clean (strip line)) /\
    in_dialogue_mode st' = true.
Proof.
  intros Hne Hcue.
  destruct (step_total st line) as [st' Hstep]. exists st'.
  assert (Hsc : forall s, current_scene (after_candidate st s)
                          = current_scene st).
  { intros s. unfold after_candidate.
    now destruct (heading_candidate s && pending st). }
  pose proof (step_cases _ _ Hstep) as Hcase.
  inversion Hcase; subst; try congruence.
  - unfold cue_line in Hcue.
    match goal with H : scene_line _ = true |- _ => rewrite H in Hcue end.
    discriminate.
  - set (st1 := after_candidate st (strip line)) in *.
    assert (E : current_scene (if pending st1 then flush st1 else st1)
                = current_scene st)
      by (destruct (pending st1); simpl; apply Hsc).
    exists (processed_data (if pending st1 then flush st1 else st1)).
    split; [exact Hstep|]. simpl. rewrite E. repeat split; auto.
Qed.

End CueName.

(** * The rest of [process_movie_script] *)

(** ** Splitting the text into lines *)

Lemma split_char_from_cons (cur : str) (sep : char) (s : str) :
  exists x r, split_char_from cur sep s = x :: r.
Proof.
  revert cur. induction s as [|c t IH]; intros cur; simpl; eauto.
  destruct (c =? sep)%N; eauto.
Qed.

Lemma join_cons (sep x : str) (l : list str) :
  l <> [] -> join sep (x :: l) = x ++ sep ++ join sep l.
Proof. destruct l; [congruence | reflexivity]. Qed.

Lemma join_split_char_from (cur : str) (sep : char) (s : str) :
  join [sep] (split_char_from cur sep s) = cur ++ s.
Proof.
  revert cur. induction s as [|c t IH]; intros cur; simpl.
  - now rewrite app_nil_r.
  - destruct (N.eqb_spec c sep) as [->|Hne].
    + destruct (split_char_from_cons [] sep t) as (x & r & E).
      rewrite join_cons by (rewrite E; discriminate).
      rewrite IH. reflexivity.
    + rewrite IH, <- app_assoc. reflexivity.
Qed.

Lemma split_char_from_free (cur : str) (sep : char) (s : str) :
  ~ In sep cur ->
  Forall (fun piece => ~ In sep piece) (split_char_from cur sep s).
Proof.
  revert cur. induction s as [|c t IH]; intros cur Hcur; simpl.
  - constructor; auto.
  - destruct (N.eqb_spec c sep) as [->|Hne].
    + constructor; auto.
    + apply IH. intros Hin. apply in_app_or in Hin as [Hin|[Hin|[]]]; auto.
Qed.

Lemma split_char_from_last (cur : str) (sep : char) (s : str) :
  last (split_char_from cur sep (s ++ [sep])) [sep] = [].
Proof.
  revert cur. induction s as [|c t IH]; intros cur; simpl.
  - now rewrite N.eqb_refl.
  - destruct (c =? sep)%N.
    + destruct (split_char_from_cons [] sep (t ++ [sep])) as (x & r & E).
      rewrite E. change (last (cur :: x :: r) [sep]) with (last (x :: r) [sep]).
      rewrite <- E. apply IH.
    + apply IH.
Qed.

(** ** The lines of the document *)

Lemma full_text_from (acc : str) (pages : list (option str)) :
  fold_left add_page pages acc =
  acc ++ concat (map (fun t => t ++ [newline]) (page_texts pages)).
Proof.
  revert acc. induction pages as [|p pages IH]; intros acc; simpl.
  - now rewrite app_nil_r.
  - rewrite IH. destruct p as [t|]; simpl; auto.
    destruct (truthy t); simpl; auto.
    now rewrite <- !app_assoc.
Qed.

Lemma full_text_pages (pages : list (option str)) :
  full_text pages = concat (map (fun t => t ++ [newline]) (page_texts pages)).
Proof. unfold full_text. now rewrite full_text_from. Qed.

Lemma concat_lines_end (texts : list str) :
  concat (map (fun t => t ++ [newline]) texts) = [] \/
  exists s, concat (map (fun t => t ++ [newline]) texts) = s ++ [newline].
Proof.
  induction texts as [|t texts IH]; simpl; auto.
  right. destruct IH as [->|[s ->]].
  - exists t. now rewrite app_nil_r.
  - exists ((t ++ [newline]) ++ s). now rewrite <- !app_assoc.
Qed.

Lemma extract_lines_last (pages : list (option str)) :
  exists before : list str, extract_lines pages = before ++ [[] : str].
Proof.
  unfold extract_lines, split_char.
  destruct (split_char_from_cons [] newline (full_text pages)) as (x & r & E).
  exists (removelast (x :: r)).
  assert (Hlast : last (x :: r) [newline] = []).
  { rewrite <- E, full_text_pages.
    destruct (concat_lines_end (page_texts pages)) as [->|[s ->]].
    - reflexivity.
    - apply split_char_from_last. }
  rewrite E, <- Hlast. apply app_removelast_last. discriminate.
Qed.

(** X1: the lines are the pieces of the text of the pages: joined with
    newlines they give the texts of the pages that have text, each followed
    by a newline, in the order of the pages; no line holds a newline, and
    the last line is empty. *)
Theorem extract_lines_pages (pages : list (option str)) :
  join [newline] (extract_lines pages) =
    concat (map (fun t => t ++ [newline]) (page_texts pages)) /\
  Forall one_line (extract_lines pages) /\
  exists before : list str, extract_lines pages = before ++ [[] : str].
Proof.
  split; [|split].
  - unfold extract_lines, split_char.
    now rewrite join_split_char_from, full_text_pages.
  - apply split_char_from_free. intros [].
  - apply extract_lines_last.
Qed.

Section Pages.
Context {U : UnicodeData}.

Lemma pending_after_blank (st : state) :
  pending (if pending st then flush_and_reset st else st) = false.
Proof. destruct (pending st) eqn:Hp; auto. Qed.

Lemma run_blank_last (before : list str) :
  exists st,
    run initial (before ++ [[] : str]) = Ok st /\ pending st = false.
Proof.
  rewrite run_app. destruct (run_total before initial) as [st1 ->].
  simpl. eexists. split; [reflexivity|]. apply pending_after_blank.
Qed.

(** X2: on the lines of a document, whose last line is empty, the loop
    ends with no dialogue pending, and the flush of lines 147-152 appends
    nothing: the records are those appended by the loop. *)
Theorem pages_end_flushed (pages : list (option str)) :
  exists st,
    run initial (extract_lines pages) = Ok st /\
    pending st = false /\
    assemble (extract_lines pages) = Ok (processed_data st).
Proof.
  destruct (extract_lines_last pages) as [before ->].
  destruct (run_blank_last before) as (st & Hrun & Hp).
  exists st. repeat split; auto.
  unfold assemble, final_flush. rewrite Hrun. simpl. now rewrite Hp.
Qed.

(** X3: a document none of whose pages has text gives the empty list of
    records. *)
Theorem pages_without_text (pages : list (option str)) :
  Forall (fun p => truthy_opt p = false) pages ->
  process_pages pages = Ok [].
Proof.
  intros Hall.
  assert (E : page_texts pages = []).
  { induction Hall as [|p pages Hp _ IH]; simpl; auto.
    rewrite IH. destruct p as [t|]; auto. simpl in Hp. now rewrite Hp. }
  unfold process_pages, extract_lines. rewrite full_text_pages, E.
  reflexivity.
Qed.

End Pages.

Lemma pages_without_text_witness :
  Forall (fun p => truthy_opt p = false) [None; Some []; None] /\
  process_pages (U := AsciiData) [None; Some []; None] = Ok [].
Proof.
  assert (H : Forall (fun p => truthy_opt p = false) [None; Some []; None])
    by (repeat constructor).
  split; [exact H|].
  exact (@pages_without_text AsciiData _ H).
Defined.

(** ** The path of the text file *)

Lemma startswith_length (s p : str) :
  startswith s p = true -> length p <= length s.
Proof.
  revert s. induction p as [|x p IH]; intros s; simpl; [lia|].
  destruct s as [|y s]; [discriminate|].
  intros H. apply andb_true_iff in H as [_ H]. apply IH in H. simpl. lia.
Qed.

Lemma replace_from_length (old new : str) :
  length new < length old ->
  forall s k, k <= length s ->
  length (replace_from k old new s) + k <= length s.
Proof.
  intros Hlen. induction s as [|c t IH]; intros k Hk; simpl in *.
  - lia.
  - destruct k as [|k].
    + destruct (startswith (c :: t) old) eqn:Hs.
      * apply startswith_length in Hs. simpl in Hs.
        rewrite length_app.
        specialize (IH (length old - 1)). lia.
      * specialize (IH 0). simpl. lia.
    + specialize (IH k). lia.
Qed.

Lemma replace_shrinks (old new s : str) :
  length new < length old -> contains old s = true ->
  length (replace old new s) < length s.
Proof.
  intros Hlen. unfold replace. induction s as [|c t IH].
  - rewrite contains_eq. destruct old; simpl in *; [lia | discriminate].
  - rewrite contains_eq. simpl replace_from.
    destruct (startswith (c :: t) old) eqn:Hs; simpl orb.
    + intros _. apply startswith_length in Hs. simpl in Hs.
      rewrite length_app.
      pose proof (@replace_from_length old new Hlen t (length old - 1)).
      simpl. lia.
    + intros H. apply IH in H. simpl. lia.
Qed.

Lemma replace_absent (old new s : str) :
  contains old s = false -> replace old new s = s.
Proof.
  unfold replace. induction s as [|c t IH]; [reflexivity|].
  rewrite contains_eq. intros H. apply orb_false_iff in H as [Hs Ht].
  simpl replace_from. rewrite Hs, (IH Ht). reflexivity.
Qed.

(** X4: the text file has the path of the JSON file exactly when the output
    path does not contain [.json]; it is then the same file, opened a second
    time for writing. *)
Theorem txt_output_same (output_path : str) :
  txt_output output_path = output_path <->
  contains (lit ".json") output_path = false.
Proof.
  unfold txt_output. split.
  - intros E. destruct (contains (lit ".json") output_path) eqn:Hc; auto.
    apply (@replace_shrinks _ (lit ".txt")) in Hc; [|simpl; lia].
    rewrite E in Hc. lia.
  - apply replace_absent.
Qed.

(** ** The text file determines the records *)

Lemma first_line_unique (t1 t2 r1 r2 : str) :
  one_line t1 -> one_line t2 ->
  t1 ++ newline :: r1 = t2 ++ newline :: r2 -> t1 = t2 /\ r1 = r2.
Proof.
  unfold one_line. revert t2.
  induction t1 as [|c t1 IH]; intros [|d t2] H1 H2 E; simpl in *.
  - injection E as ->. auto.
  - injection E as <- _. tauto.
  - injection E as -> _. tauto.
  - injection E as -> E. destruct (IH t2) as [-> ->]; auto.
Qed.

Lemma one_line_bracket (t : str) : one_line t -> one_line (t ++ lit "]").
Proof.
  unfold one_line. intros H Hin.
  apply in_app_or in Hin as [Hin|[Hin|[]]]; auto. discriminate.
Qed.

Lemma write_item_inj (a b : item) (r1 r2 : str) :
  one_line (text_of a) -> one_line (text_of b) ->
  write_item a ++ r1 = write_item b ++ r2 ->
  type_of a = type_of b /\ text_of a = text_of b /\ r1 = r2.
Proof.
  intros Ha Hb.
  destruct a as [t1|t1 s1|t1 s1|t1 s1], b as [t2|t2 s2|t2 s2|t2 s2];
    simpl in *; intros E; try discriminate E;
    try (injection E as E; discriminate E).
  - injection E as E.
    assert (E' : t1 ++ newline :: r1 = t2 ++ newline :: r2)
      by (rewrite <- ?app_assoc in E; exact E).
    destruct (first_line_unique _ _ Ha Hb E') as [-> ->]. auto.
  - injection E as E.
    assert (E' : (t1 ++ lit "]") ++ newline :: r1
                 = (t2 ++ lit "]") ++ newline :: r2)
      by (rewrite <- !app_assoc; rewrite <- ?app_assoc in E; exact E).
    destruct (first_line_unique _ _ (one_line_bracket Ha)
                (one_line_bracket Hb) E') as [E1 ->].
    apply app_inj_tail in E1 as [-> _]. auto.
  - injection E as E.
    assert (E' : t1 ++ newline :: r1 = t2 ++ newline :: r2)
      by (rewrite <- ?app_assoc in E; exact E).
    destruct (first_line_unique _ _ Ha Hb E') as [-> ->]. auto.
  - injection E as E.
    assert (E' : t1 ++ newline :: r1 = t2 ++ newline :: r2)
      by (rewrite <- ?app_assoc in E; exact E).
    destruct (first_line_unique _ _ Ha Hb E') as [-> ->]. auto.
Qed.

Lemma write_item_cons (it : item) : exists c r, write_item it = c :: r.
Proof. destruct it; simpl; eauto. Qed.

(** X5: two lists of records whose texts hold no newline and that give the
    same text file have the same types and the same texts, record by
    record: the text file loses the scene fields and nothing else. *)
Theorem txt_content_inj (l1 l2 : list item) :
  Forall one_line_item l1 -> Forall one_line_item l2 ->
  txt_content l1 = txt_content l2 ->
  map type_of l1 = map type_of l2 /\ map text_of l1 = map text_of l2.
Proof.
  unfold txt_content. intros H1. revert l2.
  induction H1 as [|a l1 Ha _ IH]; intros l2 H2 E.
  - destruct l2 as [|b l2]; auto.
    simpl in E. destruct (write_item_cons b) as (c & r & Hb).
    rewrite Hb in E. discriminate.
  - destruct H2 as [|b l2 Hb H2].
    + simpl in E. destruct (write_item_cons a) as (c & r & Hc).
      rewrite Hc in E. discriminate.
    + simpl in E.
      destruct (write_item_inj _ _ _ _ Ha Hb E) as (Et & Ex & Er).
      destruct (IH l2 H2 Er) as [IHt IHx].
      simpl. now rewrite Et, Ex, IHt, IHx.
Qed.

Lemma txt_content_inj_witness :
  Forall one_line_item [SCENE (lit "12 INT. HALLWAY"); ACTION (lit "Luke ducks.") (Some (lit "12 INT. HALLWAY"))] /\
  Forall one_line_item [SCENE (lit "12 INT. HALLWAY"); ACTION (lit "Luke ducks.") None] /\
  txt_content [SCENE (lit "12 INT. HALLWAY"); ACTION (lit "Luke ducks.") (Some (lit "12 INT. HALLWAY"))]
  = txt_content [SCENE (lit "12 INT. HALLWAY"); ACTION (lit "Luke ducks.") None] /\
  map type_of [SCENE (lit "12 INT. HALLWAY"); ACTION (lit "Luke ducks.") (Some (lit "12 INT. HALLWAY"))]
  = map type_of [SCENE (lit "12 INT. HALLWAY"); ACTION (lit "Luke ducks.") None] /\
  map text_of [SCENE (lit "12 INT. HALLWAY"); ACTION (lit "Luke ducks.") (Some (lit "12 INT. HALLWAY"))]
  = map text_of [SCENE (lit "12 INT. HALLWAY"); ACTION (lit "Luke ducks.") None].
Proof.
  assert (H1 : Forall one_line_item
                 [SCENE (lit "12 INT. HALLWAY");
                  ACTION (lit "Luke ducks.") (Some (lit "12 INT. HALLWAY"))]).
  { repeat constructor; unfold one_line_item, one_line; simpl;
      intros H; repeat (destruct H as [H|H]; [discriminate H|]); exact H. }
  assert (H2 : Forall one_line_item
                 [SCENE (lit "12 INT. HALLWAY");
                  ACTION (lit "Luke ducks.") None]).
  { repeat constructor; unfold one_line_item, one_line; simpl;
      intros H; repeat (destruct H as [H|H]; [discriminate H|]); exact H. }
  split; [exact H1|]. split; [exact H2|]. split; [reflexivity|].
  exact (@txt_content_inj _ _ H1 H2 eq_refl).
Defined.

(** ** No newline in the records *)

Lemma in_lstrip (c : char) (s : str) : In c (lstrip s) -> In c s.
Proof.
  induction s as [|x s IH]; simpl; auto.
  destruct (isspace x); simpl; auto.
Qed.

Lemma in_strip (c : char) (s : str) : In c (strip s) -> In c s.
Proof.
  unfold strip, rstrip. intros H.
  apply in_rev, in_lstrip in H. apply in_rev in H. now apply in_lstrip.
Qed.

Lemma in_sub_contd_from (c : char) (s : str) :
  forall k, In c (sub_contd_from k s) -> In c s.
Proof.
  induction s as [|x s IH]; intros k; simpl; auto.
  destruct k as [|k].
  - destruct (match_contd (x :: s)) as [[|m]|]; simpl;
      intros H; try (destruct H as [H|H]; [auto|]); eauto.
  - eauto.
Qed.

Lemma in_join_space (c : char) (l : list str) :
  In c (join (lit " ") l) -> c = 32%N \/ exists x, In x l /\ In c x.
Proof.
  induction l as [|x [|y t] IH]; simpl.
  - intros [].
  - intros H. right. exists x. auto.
  - intros H. apply in_app_or in H as [H|[H|H]].
    + right. exists x. auto.
    + left. now symmetry.
    + destruct (IH H) as [E|(z & Hz & Hc)]; auto.
      right. exists z. auto.
Qed.

Lemma one_line_strip (s : str) : one_line s -> one_line (strip s).
Proof. unfold one_line. intros H Hin. now apply H, in_strip. Qed.

Lemma one_line_clean (s : str) : one_line s -> one_line (clean s).
Proof.
  unfold one_line, clean, sub_contd. intros H Hin.
  apply in_strip, in_sub_contd_from in Hin. auto.
Qed.

Lemma one_line_join (l : list str) :
  Forall one_line l -> one_line (join (lit " ") l).
Proof.
  unfold one_line. intros Hall Hin.
  apply in_join_space in Hin as [E|(x & Hx & Hc)]; [discriminate|].
  rewrite Forall_forall in Hall. now apply (Hall x).
Qed.

Lemma Forall_snoc {A} (P : A -> Prop) (l : list A) (x : A) :
  Forall P l -> P x -> Forall P (l ++ [x]).
Proof. intros Hl Hx. apply Forall_app. split; auto. Qed.

Lemma clines_ok_cstep (cs : cstate) (it : item) :
  clines_ok cs -> one_line_item it -> clines_ok (cstep cs it).
Proof.
  intros [Hb Hd] Hit.
  assert (Hrec : one_line_item (action_record cs))
    by (apply one_line_join; auto).
  unfold clines_ok, cstep.
  destruct it as [t0|t0 s0|t0 s0|t0 s0];
    try (destruct (truthy (action_buffer cs)); simpl; split;
         now auto using Forall_snoc, Forall_nil).
  destruct (opt_eqb (current_action_scene cs) s0); simpl.
  - split; auto using Forall_snoc.
  - destruct (truthy (action_buffer cs)); split; simpl;
      auto using Forall_snoc, Forall_nil.
Qed.

Lemma consolidate_one_line (items : list item) :
  Forall one_line_item items -> Forall one_line_item (consolidate items).
Proof.
  intros Hall.
  assert (H : clines_ok (fold_left cstep items cinitial)).
  { revert Hall. pattern items, (fold_left cstep items cinitial).
    apply consolidate_ind.
    - intros _. split; constructor.
    - intros done cs it IH Hall. apply Forall_app in Hall as [Hd Hit].
      apply clines_ok_cstep; auto. now inversion Hit. }
  destruct H as [Hb Hd]. unfold consolidate, consolidate_from, cfinish.
  destruct (truthy (action_buffer _)); auto.
  apply Forall_snoc; auto. now apply one_line_join.
Qed.

Section OneLine.
Context {U : UnicodeData}.

Lemma lines_ok_record (st : state) :
  lines_ok st -> one_line_item (dialogue_record st).
Proof. intros [Hb _]. now apply one_line_join. Qed.

Lemma lines_ok_flush (st : state) : lines_ok st -> lines_ok (flush st).
Proof.
  intros H. split; simpl; [constructor|].
  apply Forall_snoc; [apply H | now apply lines_ok_record].
Qed.

Lemma lines_ok_flush_and_reset (st : state) :
  lines_ok st -> lines_ok (flush_and_reset st).
Proof. exact (@lines_ok_flush st). Qed.

Lemma lines_ok_after_candidate (st : state) (s : str) :
  lines_ok st -> lines_ok (after_candidate st s).
Proof.
  unfold after_candidate. intros H.
  destruct (heading_candidate s && pending st);
    auto using lines_ok_flush_and_reset.
Qed.

Lemma lines_ok_append (st st' : state) (r : item) :
  lines_ok st -> one_line_item r ->
  dialogue_buffer st' = dialogue_buffer st ->
  processed_data st' = processed_data st ++ [r] ->
  lines_ok st'.
Proof.
  intros [Hb Hd] Hr Eb Ed. split; [now rewrite Eb|].
  rewrite Ed. now apply Forall_snoc.
Qed.

Lemma lines_ok_step_case (st st' : state) (line : str) :
  step_case st line st' -> one_line line -> lines_ok st -> lines_ok st'.
Proof.
  intros Hcase Hline Hok.
  pose proof (one_line_strip Hline) as Hs.
  pose proof (one_line_clean Hs) as Hc.
  pose proof (lines_ok_after_candidate (strip line) Hok) as Hok1.
  assert (Hok0 : lines_ok (if pending st then flush_and_reset st else st))
    by (destruct (pending st); auto using lines_ok_flush_and_reset).
  inversion Hcase; subst.
  - exact Hok0.
  - now apply (@lines_ok_append _ _ (SCENE (strip line)) Hok0).
  - set (st1 := after_candidate st (strip line)) in *.
    assert (Hok2 : lines_ok (if pending st1 then flush st1 else st1))
      by (destruct (pending st1); auto using lines_ok_flush).
    now apply (@lines_ok_append _ _
                 (CHARACTER (clean (strip line))
                    (current_scene (if pending st1 then flush st1 else st1)))
                 Hok2).
  - set (st1 := after_candidate st (strip line)) in *.
    assert (Hok2 : lines_ok (if truthy (dialogue_buffer st1)
                             then flush st1 else st1))
      by (destruct (truthy (dialogue_buffer st1)); auto using lines_ok_flush).
    now apply (@lines_ok_append _ _
                 (ACTION (strip line)
                    (current_scene (if truthy (dialogue_buffer st1)
                                    then flush st1 else st1)))
                 Hok2).
  - destruct Hok1 as [Hb Hd]. split; simpl; auto using Forall_snoc.
  - now apply (@lines_ok_append _ _
                 (ACTION (strip line)
                    (current_scene (after_candidate st (strip line))))
                 Hok1).
Qed.

Lemma lines_ok_run (lines : list str) :
  Forall one_line lines ->
  forall st st', lines_ok st -> run st lines = Ok st' -> lines_ok st'.
Proof.
  induction 1 as [|line rest Hline _ IH]; intros st st' Hok; simpl.
  - intros E; injection E as <-; auto.
  - destruct (step st line) as [st1|] eqn:Hstep; simpl; [|discriminate].
    apply IH. eapply lines_ok_step_case; eauto using step_cases.
Qed.

Lemma process_lines_one_line (lines : list str) :
  Forall one_line lines ->
  exists out, process_lines lines = Ok out /\ Forall one_line_item out.
Proof.
  intros Hall. destruct (run_total lines initial) as [st Hrun].
  exists (consolidate (final_flush st)). split.
  - unfold process_lines, assemble. now rewrite Hrun.
  - apply consolidate_one_line.
    assert (Hok : lines_ok st).
    { eapply lines_ok_run; eauto. split; constructor. }
    unfold final_flush. destruct (pending st); [|apply Hok].
    apply Forall_snoc; [apply Hok | now apply lines_ok_record].
Qed.

(** X6: no record of a document has a newline in its text: in the text
    file every record is written on one line of its own. *)
Theorem pages_one_line (pages : list (option str)) :
  exists out, process_pages pages = Ok out /\ Forall one_line_item out.
Proof.
  apply process_lines_one_line.
  unfold extract_lines, split_char. apply split_char_from_free. intros [].
Qed.

End OneLine.

(** ** A property of all the texts *)

Section Texts.
Context {U : UnicodeData}.
Variable P : str -> Prop.
Hypothesis P_join :
  forall l : list str, l <> [] -> Forall P l -> P (join (lit " ") l).

Lemma ctexts_all_cstep (cs : cstate) (it : item) :
  ctexts_all P cs -> P (text_of it) -> ctexts_all P (cstep cs it).
Proof.
  intros [Hb Hd] Hit.
  assert (Hrec : truthy (action_buffer cs) = true ->
                 P (text_of (action_record cs))).
  { intros Ht. simpl. apply P_join; auto. now apply truthy_true. }
  unfold ctexts_all, cstep.
  destruct it as [t0|t0 s0|t0 s0|t0 s0];
    try (destruct (truthy (action_buffer cs)) eqn:Ht; simpl; split;
         now auto using Forall_snoc, Forall_nil).
  destruct (opt_eqb (current_action_scene cs) s0); simpl.
  - split; auto using Forall_snoc.
  - destruct (truthy (action_buffer cs)) eqn:Ht; split; simpl;
      auto using Forall_snoc, Forall_nil.
Qed.

Lemma consolidate_texts_all (items : list item) :
  Forall (fun it => P (text_of it)) items ->
  Forall (fun it => P (text_of it)) (consolidate items).
Proof.
  intros Hall.
  assert (H : ctexts_all P (fold_left cstep items cinitial)).
  { revert Hall. pattern items, (fold_left cstep items cinitial).
    apply consolidate_ind.
    - intros _. split; constructor.
    - intros done cs it IH Hall. apply Forall_app in Hall as [Hd Hit].
      apply ctexts_all_cstep; auto. now inversion Hit. }
  destruct H as [Hb Hd]. unfold consolidate, consolidate_from, cfinish.
  destruct (truthy (action_buffer _)) eqn:Ht; auto.
  apply Forall_snoc; auto. simpl. apply P_join; auto. now apply truthy_true.
Qed.

Lemma texts_all_flush (st : state) :
  texts_all P st -> truthy (dialogue_buffer st) = true ->
  texts_all P (flush st).
Proof.
  intros [Hb Hd] Ht. split; simpl; [constructor|].
  apply Forall_snoc; auto. simpl. apply P_join; auto. now apply truthy_true.
Qed.

Lemma texts_all_pending (st : state) :
  texts_all P st ->
  texts_all P (if pending st then flush_and_reset st else st).
Proof.
  intros H. destruct (pending st) eqn:Hp; auto.
  apply andb_true_iff in Hp as [_ Hp]. exact (texts_all_flush H Hp).
Qed.

Lemma texts_all_after_candidate (st : state) (s : str) :
  texts_all P st -> texts_all P (after_candidate st s).
Proof.
  unfold after_candidate. intros H.
  destruct (heading_candidate s); simpl; auto using texts_all_pending.
Qed.

Lemma texts_all_append (st st' : state) (r : item) :
  texts_all P st -> P (text_of r) ->
  dialogue_buffer st' = dialogue_buffer st ->
  processed_data st' = processed_data st ++ [r] ->
  texts_all P st'.
Proof.
  intros [Hb Hd] Hr Eb Ed. split; [now rewrite Eb|].
  rewrite Ed. now apply Forall_snoc.
Qed.

Lemma texts_all_step_case (st st' : state) (line : str) :
  step_case st line st' ->
  (strip line <> [] -> P (strip line)) ->
  (cue_line (strip line) = true -> P (clean (strip line))) ->
  texts_all P st -> texts_all P st'.
Proof.
  intros Hcase Hs Hc Hok.
  pose proof (texts_all_after_candidate (strip line) Hok) as Hok1.
  pose proof (texts_all_pending Hok) as Hok0.
  inversion Hcase; subst.
  - exact Hok0.
  - apply (@texts_all_append _ _ (SCENE (strip line)) Hok0); auto.
  - set (st1 := after_candidate st (strip line)) in *.
    assert (Hok2 : texts_all P (if pending st1 then flush st1 else st1)).
    { destruct (pending st1) eqn:Hp; auto.
      apply andb_true_iff in Hp as [_ Hp]. now apply texts_all_flush. }
    apply (@texts_all_append _ _
             (CHARACTER (clean (strip line))
                (current_scene (if pending st1 then flush st1 else st1)))
             Hok2); auto.
  - set (st1 := after_candidate st (strip line)) in *.
    assert (Hok2 : texts_all P (if truthy (dialogue_buffer st1)
                                then flush st1 else st1)).
    { destruct (truthy (dialogue_buffer st1)) eqn:Hp; auto.
      now apply texts_all_flush. }
    apply (@texts_all_append _ _
             (ACTION (strip line)
                (current_scene (if truthy (dialogue_buffer st1)
                                then flush st1 else st1)))
             Hok2); auto.
  - destruct Hok1 as [Hb Hd]. split; simpl; auto using Forall_snoc.
  - apply (@texts_all_append _ _
             (ACTION (strip line)
                (current_scene (after_candidate st (strip line))))
             Hok1); auto.
Qed.

Lemma texts_all_run (lines : list str) :
  Forall (fun line =>
            (strip line <> [] -> P (strip line)) /\
            (cue_line (strip line) = true -> P (clean (strip line)))) lines ->
  forall st st', texts_all P st -> run st lines = Ok st' -> texts_all P st'.
Proof.
  induction 1 as [|line rest [Hs Hc] _ IH]; intros st st' Hok; simpl.
  - intros E; injection E as <-; auto.
  - destruct (step st line) as [st1|] eqn:Hstep; simpl; [|discriminate].
    apply IH. eapply texts_all_step_case; eauto using step_cases.
Qed.

Lemma process_lines_texts_all (lines : list str) :
  Forall (fun line =>
            (strip line <> [] -> P (strip line)) /\
            (cue_line (strip line) = true -> P (clean (strip line)))) lines ->
  exists out,
    process_lines lines = Ok out /\ Forall (fun it => P (text_of it)) out.
Proof.
  intros Hall. destruct (run_total lines initial) as [st Hrun].
  exists (consolidate (final_flush st)). split.
  - unfold process_lines, assemble. now rewrite Hrun.
  - apply consolidate_texts_all.
    assert (Hok : texts_all P st).
    { eapply texts_all_run; eauto. split; constructor. }
    unfold final_flush. destruct (pending st) eqn:Hp; [|apply Hok].
    apply andb_true_iff in Hp as [_ Hp].
    apply (texts_all_flush Hok Hp).
Qed.

End Texts.

(** X7: for every list of lines, no record that [process_lines] returns,
    of any type, has an empty text. *)
Theorem no_empty_text {U : UnicodeData} (lines : list str) :
  exists out,
    process_lines lines = Ok out /\
    Forall (fun it => text_of it <> []) out.
Proof.
  apply (@process_lines_texts_all U (fun s => s <> [])).
  - intros l Hl Hall. now apply join_nonempty.
  - apply Forall_forall. intros line _. split; auto.
    intros Hcue. apply truthy_true, is_cue_nonempty.
    unfold cue_line in Hcue. now apply andb_true_iff in Hcue as [_ Hcue].
Qed.

(** ** What the consolidator keeps *)

Lemma filter_snoc {A} (f : A -> bool) (l : list A) (x : A) :
  filter f (l ++ [x]) = filter f l ++ (if f x then [x] else []).
Proof. now rewrite filter_app. Qed.

Lemma not_action_cstep (cs : cstate) (it : item) :
  filter not_action (consolidated_data (cstep cs it)) =
  filter not_action (consolidated_data cs) ++
  (if not_action it then [it] else []).
Proof.
  unfold cstep.
  destruct it as [t0|t0 s0|t0 s0|t0 s0];
    try (destruct (truthy (action_buffer cs)); simpl;
         rewrite ?filter_snoc; simpl; rewrite ?app_nil_r; reflexivity).
  destruct (opt_eqb (current_action_scene cs) s0); simpl.
  - now rewrite app_nil_r.
  - destruct (truthy (action_buffer cs)); rewrite ?filter_snoc; simpl;
      now rewrite ?app_nil_r.
Qed.

Lemma filter_not_action_consolidate (items : list item) :
  filter not_action (consolidate items) = filter not_action items.
Proof.
  assert (H : filter not_action
                (consolidated_data (fold_left cstep items cinitial))
              = filter not_action items).
  { pattern items, (fold_left cstep items cinitial).
    apply consolidate_ind.
    - reflexivity.
    - intros done cs it IH. now rewrite not_action_cstep, filter_snoc, IH. }
  unfold consolidate, consolidate_from, cfinish.
  destruct (truthy (action_buffer _)); auto.
  rewrite filter_snoc. simpl. now rewrite app_nil_r.
Qed.

(** X8: the consolidator passes the records that are not ACTION records
    through, unchanged and in their order. *)
Theorem consolidate_keeps_others (items : list item) :
  filter not_action (consolidate items) = filter not_action items.
Proof. apply filter_not_action_consolidate. Qed.

(** ** The consolidator works block by block *)

Lemma cstep_after_prefix (pre : list item) (cs : cstate) (it : item) :
  cstep (after_prefix pre cs) it = after_prefix pre (cstep cs it).
Proof.
  unfold cstep, after_prefix, action_record.
  destruct it as [t0|t0 s0|t0 s0|t0 s0]; simpl;
    try (destruct (truthy (action_buffer cs)); simpl;
         now rewrite <- ?app_assoc).
  destruct (opt_eqb (current_action_scene cs) s0); simpl; auto.
  destruct (truthy (action_buffer cs)); simpl; now rewrite <- ?app_assoc.
Qed.

Lemma fold_after_prefix (pre : list item) (items : list item) :
  forall cs,
    fold_left cstep items (after_prefix pre cs) =
    after_prefix pre (fold_left cstep items cs).
Proof.
  induction items as [|it items IH]; intros cs; simpl; auto.
  now rewrite cstep_after_prefix, IH.
Qed.

Lemma cfinish_after_prefix (pre : list item) (cs : cstate) :
  cfinish (after_prefix pre cs) = pre ++ cfinish cs.
Proof.
  unfold cfinish, after_prefix, action_record. simpl.
  destruct (truthy (action_buffer cs)); now rewrite <- ?app_assoc.
Qed.

Lemma idle_unscened_fold (items : list item) :
  idle_unscened (fold_left cstep items cinitial).
Proof.
  pattern items, (fold_left cstep items cinitial).
  apply consolidate_ind.
  - intros _. reflexivity.
  - intros done cs it IH. unfold idle_unscened, cstep in *.
    destruct it as [t0|t0 s0|t0 s0|t0 s0];
      try (destruct (truthy (action_buffer cs)) eqn:Hb; simpl; now auto).
    destruct (opt_eqb (current_action_scene cs) s0); simpl.
    + intros E. apply app_eq_nil in E as [_ E]. discriminate.
    + discriminate.
Qed.

Lemma cstep_other (cs : cstate) (x : item) :
  is_action x = false -> idle_unscened cs ->
  cstep cs x = after_prefix (cfinish cs ++ [x]) cinitial.
Proof.
  intros Hx Hidle. unfold cfinish, after_prefix.
  assert (E : cstep cs x =
              (if truthy (action_buffer cs)
               then mkCState ((consolidated_data cs ++ [action_record cs])
                                ++ [x]) [] None
               else mkCState (consolidated_data cs ++ [x])
                             (action_buffer cs) (current_action_scene cs)))
    by (destruct x; try reflexivity; discriminate).
  rewrite E. destruct (truthy (action_buffer cs)) eqn:Hb; simpl.
  - now rewrite app_nil_r.
  - apply truthy_false in Hb. rewrite (Hidle Hb), Hb, app_nil_r. reflexivity.
Qed.

(** X9: a record that is not an ACTION record cuts the list in two for the
    consolidator: the list before it and the list after it are
    consolidated apart, and the record stays between them. *)
Theorem consolidate_split (before after : list item) (x : item) :
  is_action x = false ->
  consolidate (before ++ x :: after) =
  consolidate before ++ x :: consolidate after.
Proof.
  intros Hx. unfold consolidate, consolidate_from.
  rewrite fold_left_app. simpl fold_left.
  rewrite (cstep_other _ Hx (idle_unscened_fold before)).
  rewrite fold_after_prefix, cfinish_after_prefix, <- app_assoc.
  reflexivity.
Qed.

Lemma consolidate_split_witness :
  is_action (SCENE (lit "12 INT. HALLWAY")) = false /\
  consolidate ([ACTION (lit "Luke ducks.") None;
                ACTION (lit "Debris falls.") None]
               ++ SCENE (lit "12 INT. HALLWAY")
               :: [ACTION (lit "Vader enters.") (Some (lit "12 INT. HALLWAY"))])
  = consolidate [ACTION (lit "Luke ducks.") None;
                 ACTION (lit "Debris falls.") None]
    ++ SCENE (lit "12 INT. HALLWAY")
    :: consolidate [ACTION (lit "Vader enters.")
                      (Some (lit "12 INT. HALLWAY"))].
Proof.
  split; [reflexivity|].
  exact (@consolidate_split
           [ACTION (lit "Luke ducks.") None; ACTION (lit "Debris falls.") None]
           [ACTION (lit "Vader enters.") (Some (lit "12 INT. HALLWAY"))]
           (SCENE (lit "12 INT. HALLWAY")) eq_refl).
Defined.

(** ** A run of ACTION records of one scene *)

Lemma opt_eqb_refl (s : option str) : opt_eqb s s = true.
Proof. now apply opt_eqb_eq. Qed.

Lemma fold_run (s : option str) (texts : list str) :
  forall cd buf,
    buf <> [] ->
    fold_left cstep (map (fun t => ACTION t s) texts) (mkCState cd buf s)
    = mkCState cd (buf ++ texts) s.
Proof.
  induction texts as [|t texts IH]; intros cd buf Hb; simpl.
  - now rewrite app_nil_r.
  - rewrite opt_eqb_refl. simpl. rewrite IH.
    + now rewrite <- app_assoc.
    + intros E. apply app_eq_nil in E as [_ E]. discriminate.
Qed.

(** X10: a non-empty run of ACTION records of one scene is consolidated
    into one ACTION record of that scene, whose text is the texts of the
    run joined by single spaces. *)
Theorem consolidate_run (s : option str) (texts : list str) :
  texts <> [] ->
  consolidate (map (fun t => ACTION t s) texts)
  = [ACTION (join (lit " ") texts) s].
Proof.
  destruct texts as [|t texts]; [congruence|]. intros _.
  unfold consolidate, consolidate_from.
  change (fold_left cstep (map (fun t => ACTION t s) (t :: texts)) cinitial)
    with (fold_left cstep (map (fun t => ACTION t s) texts)
            (cstep cinitial (ACTION t s))).
  assert (E : cstep cinitial (ACTION t s) = mkCState [] [t] s).
  { unfold cstep. simpl. destruct s; reflexivity. }
  rewrite E, fold_run by discriminate. reflexivity.
Qed.

Lemma consolidate_run_witness :
  [lit "Luke ducks."; lit "Debris falls."; lit "He runs."] <> [] /\
  consolidate (map (fun t => ACTION t (Some (lit "12 INT. HALLWAY")))
                   [lit "Luke ducks."; lit "Debris falls."; lit "He runs."])
  = [ACTION (join (lit " ")
               [lit "Luke ducks."; lit "Debris falls."; lit "He runs."])
            (Some (lit "12 INT. HALLWAY"))].
Proof.
  assert (H : [lit "Luke ducks."; lit "Debris falls."; lit "He runs."] <> [])
    by discriminate.
  split; [exact H|].
  exact (@consolidate_run (Some (lit "12 INT. HALLWAY")) _ H).
Defined.

(** ** The consolidator adds no record *)

Lemma csize_cstep (cs : cstate) (it : item) :
  csize (cstep cs it) <= S (csize cs).
Proof.
  unfold csize, cstep.
  destruct it as [t0|t0 s0|t0 s0|t0 s0];
    try (destruct (truthy (action_buffer cs)) eqn:Hb; simpl;
         rewrite ?Hb, ?length_app; simpl; lia).
  destruct (opt_eqb (current_action_scene cs) s0); simpl.
  - rewrite truthy_snoc. destruct (truthy (action_buffer cs)); lia.
  - destruct (truthy (action_buffer cs)) eqn:Hb; simpl;
      rewrite ?length_app; simpl; lia.
Qed.

(** X11: the consolidated list is never longer than the list it is made
    from. *)
Theorem consolidate_length (items : list item) :
  length (consolidate items) <= length items.
Proof.
  assert (H : csize (fold_left cstep items cinitial) <= length items).
  { pattern items, (fold_left cstep items cinitial).
    apply consolidate_ind.
    - unfold csize. simpl. lia.
    - intros done cs it IH. rewrite length_app.
      change (length [it]) with 1.
      pose proof (csize_cstep cs it). lia. }
  unfold consolidate, consolidate_from, cfinish. unfold csize in H.
  destruct (truthy (action_buffer _)); rewrite ?length_app; simpl; lia.
Qed.

(** ** The SCENE and CHARACTER records are the heading and cue lines *)

Lemma filter_sub {A} (f g : A -> bool) (l : list A) :
  (forall x, f x = true -> g x = true) ->
  filter f (filter g l) = filter f l.
Proof.
  intros Hfg. induction l as [|x l IH]; simpl; auto.
  destruct (g x) eqn:Hg; simpl.
  - now rewrite IH.
  - destruct (f x) eqn:Hf; auto. apply Hfg in Hf. congruence.
Qed.

Lemma scenes_of_consolidate (items : list item) :
  scenes_of (consolidate items) = scenes_of items.
Proof.
  unfold scenes_of.
  assert (Hsub : forall x, is_scene x = true -> not_action x = true)
    by (intros x; unfold not_action; destruct x; simpl; intros; congruence).
  rewrite <- (@filter_sub item is_scene not_action (consolidate items) Hsub),
          <- (@filter_sub item is_scene not_action items Hsub),
          filter_not_action_consolidate.
  reflexivity.
Qed.

Lemma characters_of_consolidate (items : list item) :
  characters_of (consolidate items) = characters_of items.
Proof.
  unfold characters_of.
  assert (Hsub : forall x, is_character x = true -> not_action x = true)
    by (intros x; unfold not_action; destruct x; simpl; intros; congruence).
  rewrite <- (@filter_sub item is_character not_action (consolidate items) Hsub),
          <- (@filter_sub item is_character not_action items Hsub),
          filter_not_action_consolidate.
  reflexivity.
Qed.

Lemma scenes_of_snoc (l : list item) (r : item) :
  scenes_of (l ++ [r]) = scenes_of l ++ (if is_scene r then [text_of r] else []).
Proof.
  unfold scenes_of. rewrite filter_snoc, map_app. now destruct (is_scene r).
Qed.

Lemma characters_of_snoc (l : list item) (r : item) :
  characters_of (l ++ [r]) =
  characters_of l ++ (if is_character r then [text_of r] else []).
Proof.
  unfold characters_of. rewrite filter_snoc, map_app.
  now destruct (is_character r).
Qed.

Section Heads.
Context {U : UnicodeData}.

Lemma same_heads_flush (st : state) : same_heads st (flush st).
Proof.
  split; simpl; [rewrite scenes_of_snoc | rewrite characters_of_snoc];
    simpl; apply app_nil_r.
Qed.

Lemma same_heads_pending (st : state) :
  same_heads st (if pending st then flush_and_reset st else st).
Proof.
  destruct (pending st); [exact (same_heads_flush st) | split; reflexivity].
Qed.

Lemma same_heads_after_candidate (st : state) (s : str) :
  same_heads st (after_candidate st s).
Proof.
  unfold after_candidate.
  destruct (heading_candidate s && pending st);
    [exact (same_heads_flush st) | split; reflexivity].
Qed.

Lemma scene_line_cue_line (s : str) :
  scene_line s = true -> cue_line s = false.
Proof. unfold cue_line. now intros ->. Qed.

Lemma cue_line_scene_line (s : str) :
  cue_line s = true -> scene_line s = false.
Proof.
  unfold cue_line. destruct (scene_line s); [discriminate | reflexivity].
Qed.

Lemma heads_step_case (st st' : state) (line : str) :
  step_case st line st' ->
  scenes_of (processed_data st') =
    scenes_of (processed_data st) ++ filter scene_line [strip line] /\
  characters_of (processed_data st') =
    characters_of (processed_data st)
    ++ map clean (filter cue_line [strip line]).
Proof.
  intros Hcase.
  destruct (same_heads_pending st) as [Hs0 Hc0].
  destruct (same_heads_after_candidate st (strip line)) as [Hs1 Hc1].
  inversion Hcase; subst.
  - match goal with H : strip line = [] |- _ => rewrite H end.
    simpl. now rewrite Hs0, Hc0, !app_nil_r.
  - simpl. rewrite scenes_of_snoc, characters_of_snoc. simpl.
    match goal with H : scene_line _ = true |- _ =>
      rewrite H, (scene_line_cue_line _ H) end.
    simpl. now rewrite Hs0, Hc0, app_nil_r.
  - set (st1 := after_candidate st (strip line)) in *.
    assert (H2 : same_heads st1 (if pending st1 then flush st1 else st1))
      by (destruct (pending st1);
          [exact (same_heads_flush st1) | split; reflexivity]).
    destruct H2 as [Hs2 Hc2].
    simpl. rewrite scenes_of_snoc, characters_of_snoc. simpl.
    match goal with H : cue_line _ = true |- _ =>
      rewrite H, (cue_line_scene_line _ H) end.
    simpl. now rewrite Hs2, Hc2, Hs1, Hc1, app_nil_r.
  - set (st1 := after_candidate st (strip line)) in *.
    assert (H2 : same_heads st1 (if truthy (dialogue_buffer st1)
                                 then flush st1 else st1))
      by (destruct (truthy (dialogue_buffer st1));
          [exact (same_heads_flush st1) | split; reflexivity]).
    destruct H2 as [Hs2 Hc2].
    simpl. rewrite scenes_of_snoc, characters_of_snoc. simpl.
    repeat match goal with
           | H : scene_line _ = false |- _ => rewrite H; clear H
           | H : cue_line _ = false |- _ => rewrite H; clear H
           end.
    simpl. now rewrite Hs2, Hc2, Hs1, Hc1, !app_nil_r.
  - simpl.
    repeat match goal with
           | H : scene_line _ = false |- _ => rewrite H; clear H
           | H : cue_line _ = false |- _ => rewrite H; clear H
           end.
    simpl. now rewrite Hs1, Hc1, !app_nil_r.
  - simpl. rewrite scenes_of_snoc, characters_of_snoc. simpl.
    repeat match goal with
           | H : scene_line _ = false |- _ => rewrite H; clear H
           | H : cue_line _ = false |- _ => rewrite H; clear H
           end.
    simpl. now rewrite Hs1, Hc1, !app_nil_r.
Qed.

Lemma heads_run (lines : list str) :
  forall st st', run st lines = Ok st' ->
  scenes_of (processed_data st') =
    scenes_of (processed_data st) ++ scene_texts lines /\
  characters_of (processed_data st') =
    characters_of (processed_data st) ++ cue_texts lines.
Proof.
  unfold scene_texts, cue_texts.
  induction lines as [|line rest IH]; intros st st'; simpl run.
  - intros E; injection E as <-. simpl. now rewrite !app_nil_r.
  - destruct (step st line) as [st1|] eqn:Hstep; simpl bind; [|discriminate].
    intros Hrun. destruct (IH _ _ Hrun) as [Hs Hc].
    destruct (heads_step_case (step_cases _ _ Hstep)) as [Hs1 Hc1].
    rewrite Hs, Hc, Hs1, Hc1, <- !app_assoc.
    change (map strip (line :: rest)) with ([strip line] ++ map strip rest).
    now rewrite !filter_app, map_app.
Qed.

Lemma heads_process_lines (lines : list str) :
  exists out,
    process_lines lines = Ok out /\
    scenes_of out = scene_texts lines /\
    characters_of out = cue_texts lines.
Proof.
  destruct (run_total lines initial) as [st Hrun].
  exists (consolidate (final_flush st)). split.
  - unfold process_lines, assemble. now rewrite Hrun.
  - rewrite scenes_of_consolidate, characters_of_consolidate.
    destruct (heads_run _ _ Hrun) as [Hs Hc]. simpl in Hs, Hc.
    unfold final_flush. destruct (pending st); auto.
    rewrite scenes_of_snoc, characters_of_snoc. simpl.
    now rewrite !app_nil_r.
Qed.

(** X12: the texts of the SCENE records are the trimmed lines that pass
    the heading tests of lines 58, 71 and 79, in the order of the lines:
    whether a line becomes a SCENE record does not depend on the lines
    before it. *)
Theorem scene_records (lines : list str) :
  exists out,
    process_lines lines = Ok out /\ scenes_of out = scene_texts lines.
Proof.
  destruct (heads_process_lines lines) as (out & Hout & Hs & _). eauto.
Qed.

(** X13: the texts of the CHARACTER records are the cleaned names of the
    lines that are no scene heading and pass the cue tests of lines 92 and
    94, in the order of the lines: whether a line becomes a CHARACTER
    record does not depend on the lines before it. *)
Theorem character_records (lines : list str) :
  exists out,
    process_lines lines = Ok out /\ characters_of out = cue_texts lines.
Proof.
  destruct (heads_process_lines lines) as (out & Hout & _ & Hc). eauto.
Qed.

(** X14: the records add and drop no text and keep the order of the
    lines: whitespace apart, the texts of the records, one after the other,
    are what the lines contribute, one after the other (the cleaned name for
    a line emitted as a CHARACTER record, the trimmed line otherwise). *)
Theorem output_text_exact (lines : list str) :
  exists out,
    process_lines lines = Ok out /\
    nows (all_text out) = concat (map (fun l => nows (kept l)) lines).
Proof. apply process_lines_text. Qed.

End Heads.

Section Tests.
Context {U : UnicodeData}.

(** X15: every SCENE record has a text that passes the heading tests, and
    every CHARACTER record a text that passes the cue tests: upper-case, at
    most 30 characters and 4 words, none of the excluded words. *)
Theorem records_pass_tests (lines : list str) :
  exists out,
    process_lines lines = Ok out /\
    Forall (fun t => scene_line t = true) (scenes_of out) /\
    Forall (fun t => is_cue t = true) (characters_of out).
Proof.
  destruct (heads_process_lines lines) as (out & Hout & Hs & Hc).
  exists out. split; auto. rewrite Hs, Hc. split; apply Forall_forall.
  - intros t Hin. unfold scene_texts in Hin.
    now apply filter_In in Hin as [_ Hin].
  - intros t Hin. unfold cue_texts in Hin.
    apply in_map_iff in Hin as (s & <- & Hin).
    apply filter_In in Hin as [_ Hin]. unfold cue_line in Hin.
    now apply andb_true_iff in Hin as [_ Hin].
Qed.

End Tests.

(** ** Names without a parenthesis *)

Lemma match_marker_paren (s : str) (n : nat) :
  match_marker s = Some n -> In 40%N s.
Proof.
  unfold match_marker.
  destruct s as [|p [|c [|o [|m [|t r]]]]]; try discriminate.
  destruct (N.eqb_spec p 40) as [->|]; [|discriminate].
  intros _. now left.
Qed.

Lemma match_contd_paren (s : str) (n : nat) :
  match_contd s = Some n -> In 40%N s.
Proof.
  unfold match_contd.
  destruct (match_marker (skipn (count_space s) s)) as [m|] eqn:E;
    [|discriminate].
  intros _. apply match_marker_paren in E.
  rewrite <- (firstn_skipn (count_space s) s). apply in_or_app. now right.
Qed.

Lemma sub_contd_no_paren (s : str) : ~ In 40%N s -> sub_contd s = s.
Proof.
  unfold sub_contd. induction s as [|c s IH]; intros Hno; [reflexivity|].
  simpl sub_contd_from.
  destruct (match_contd (c :: s)) as [n|] eqn:E.
  - apply match_contd_paren in E. contradiction.
  - rewrite IH; auto. intros Hin. apply Hno. now right.
Qed.

Lemma lstrip_length (s : str) : length (lstrip s) <= length s.
Proof.
  induction s as [|c s IH]; simpl; auto.
  destruct (isspace c); simpl; lia.
Qed.

Lemma lstrip_fixed (s : str) :
  lstrip s = s <-> match s with [] => True | c :: _ => isspace c = false end.
Proof.
  destruct s as [|c s]; simpl; [tauto|].
  destruct (isspace c) eqn:Hc; split; auto; try discriminate.
  intros E. pose proof (lstrip_length s) as Hl. rewrite E in Hl.
  simpl in Hl. lia.
Qed.

Lemma lstrip_idem (s : str) : lstrip (lstrip s) = lstrip s.
Proof.
  induction s as [|c s IH]; simpl; auto.
  destruct (isspace c) eqn:Hc; auto. simpl. now rewrite Hc.
Qed.

Lemma lstrip_suffix (s : str) : exists pre, s = pre ++ lstrip s.
Proof.
  induction s as [|c s [pre IH]]; simpl.
  - now exists [].
  - destruct (isspace c).
    + exists (c :: pre). simpl. now rewrite <- IH.
    + now exists [].
Qed.

(** A string trimmed on the right keeps its first character. *)
Lemma lstrip_rstrip (t : str) : lstrip t = t -> lstrip (rstrip t) = rstrip t.
Proof.
  intros Ht. unfold rstrip.
  destruct (lstrip_suffix (rev t)) as [pre Hpre].
  assert (E : t = rev (lstrip (rev t)) ++ rev pre).
  { rewrite <- rev_app_distr, <- Hpre. now rewrite rev_involutive. }
  apply lstrip_fixed. apply lstrip_fixed in Ht.
  destruct (rev (lstrip (rev t))) as [|c u]; auto.
  rewrite E in Ht. exact Ht.
Qed.

Lemma strip_idem (s : str) : strip (strip s) = strip s.
Proof.
  unfold strip.
  rewrite (lstrip_rstrip (lstrip_idem s)).
  unfold rstrip. now rewrite rev_involutive, lstrip_idem.
Qed.

(** X16: cleaning changes nothing in a trimmed line without an opening
    parenthesis: such a line, when it is emitted as a CHARACTER record,
    is the text of the record. *)
Theorem clean_without_paren (line : str) :
  ~ In 40%N line -> clean (strip line) = strip line.
Proof.
  intros Hno. unfold clean.
  rewrite sub_contd_no_paren; [apply strip_idem|].
  intros Hin. now apply Hno, in_strip.
Qed.

Lemma clean_without_paren_witness :
  ~ In 40%N (lit "  LUKE ") /\
  clean (strip (lit "  LUKE ")) = strip (lit "  LUKE ").
Proof.
  assert (H : ~ In 40%N (lit "  LUKE ")).
  { simpl. intros H.
    repeat (destruct H as [H|H]; [discriminate H|]). exact H. }
  split; [exact H|].
  exact (@clean_without_paren (lit "  LUKE ") H).
Defined.

Lemma txt_output_same_witness :
  contains (lit ".json") (lit "out/star_wars") = false /\
  txt_output (lit "out/star_wars") = lit "out/star_wars".
Proof.
  assert (H : contains (lit ".json") (lit "out/star_wars") = false)
    by reflexivity.
  split; [exact H|].
  exact (proj2 (txt_output_same (lit "out/star_wars")) H).
Defined.

(** ** The usual output path *)

Lemma startswith_straddle (s : str) :
  s <> [] ->
  startswith (s ++ lit ".json") (lit ".json") = true ->
  startswith s (lit ".json") = true.
Proof.
  intros Hs.
  change (lit ".json") with [46; 106; 115; 111; 110]%N.
  destruct s as [|a [|b [|c [|d [|e r]]]]]; [congruence| | | | |];
    cbn [app startswith];
    intros H; repeat (apply andb_true_iff in H as [? H]);
    repeat match goal with
           | E : (_ =? _)%N = true |- _ => apply N.eqb_eq in E
           end;
    try congruence; subst; rewrite !N.eqb_refl; reflexivity.
Qed.

Lemma replace_from_cons (old new : str) (c : char) (t : str) :
  replace_from 0 old new (c :: t) =
  if startswith (c :: t) old
  then new ++ replace_from (length old - 1) old new t
  else c :: replace_from 0 old new t.
Proof. reflexivity. Qed.

(** X17: for an output path that ends in [.json] and has no other
    [.json] in it, the text file is the path with [.txt] in place of that
    ending. *)
Theorem txt_output_json (stem : str) :
  contains (lit ".json") stem = false ->
  txt_output (stem ++ lit ".json") = stem ++ lit ".txt".
Proof.
  unfold txt_output, replace.
  induction stem as [|c t IH]; intros Hno; [reflexivity|].
  rewrite contains_eq in Hno. apply orb_false_iff in Hno as [Hs Ht].
  change ((c :: t) ++ lit ".json") with (c :: (t ++ lit ".json")).
  rewrite replace_from_cons.
  destruct (startswith (c :: t ++ lit ".json") (lit ".json")) eqn:E.
  - apply (@startswith_straddle (c :: t)) in E; [congruence | discriminate].
  - now rewrite (IH Ht).
Qed.

Lemma txt_output_json_witness :
  contains (lit ".json") (lit "processed_scripts/star_wars_processed") = false /\
  txt_output (lit "processed_scripts/star_wars_processed" ++ lit ".json")
  = lit "processed_scripts/star_wars_processed" ++ lit ".txt".
Proof.
  assert (H : contains (lit ".json")
                (lit "processed_scripts/star_wars_processed") = false)
    by reflexivity.
  split; [exact H|].
  exact (@txt_output_json (lit "processed_scripts/star_wars_processed") H).
Defined.
